(** * Verification of the interval search of plethysmo's EDF reader

    Shallow embedding of [plethysmo/kernel/edf_file_reader.py]:
    the normalisation done in [EDFFileReader.__init__], the [parameters]
    setter, [compute_statistics] and the three passes of
    [update_valid_intervals] (segmentation scan per ROI, exclusion pass,
    separation pass).

    Python floats are modelled by rationals [Q] for the search (samples,
    [dt], durations, thresholds); indices are [Z]; an interval is the
    Python tuple [(start, end)] as [Z * Z]. *)

From Stdlib Require Import String Ascii ZArith QArith Qminmax Qround Qabs Qfield Lqa List Bool Lia Sorted.
Import ListNotations.
Open Scope string_scope.
Open Scope list_scope.
Open Scope Z_scope.

(** ** Python scalar helpers *)

(** [a < b] on floats. *)
Definition qlt (a b : Q) : bool := negb (Qle_bool b a).

(** [int(x)] on a float: truncation toward zero. *)
Definition py_int (x : Q) : Z := Z.quot (Qnum x) (Zpos (Qden x)).

(** [n * self._dt] for an integer [n]. *)
Definition zdt (n : Z) (dt : Q) : Q := (inject_Z n * dt)%Q.

(** ** ROIs

    [plethysmo.kernel.roi.ROI] exposes [lower_corner] and [upper_corner], two
    [(time, amplitude)] pairs; the reader only reads these two fields. *)
Record ROI := mkROI {
  lower_corner : Q * Q;
  upper_corner : Q * Q
}.

(** Conversion of an ROI's time span to clamped sample indices, as done at
    the start of each ROI iteration and of each excluded-zone iteration:
    [start_roi = max(int(t0/dt),0)], [end_roi = min(int(t1/dt),len(signal)-1)]. *)
Definition roi_start (dt : Q) (r : ROI) : Z :=
  Z.max (py_int (fst (lower_corner r) / dt)) 0.

Definition roi_end (signal : list Q) (dt : Q) (r : ROI) : Z :=
  Z.min (py_int (fst (upper_corner r) / dt)) (Z.of_nat (length signal) - 1).

(** ** Segmentation scan (first loop of [update_valid_intervals]) *)

Section Scan.

Variable signal : list Q.
Variables dt signal_duration threshold_min threshold_max : Q.
Variable end_roi : Z.

(** [self._signal[i]] (indices used by the scan are in range). *)
Definition sample (i : Z) : Q := nth (Z.to_nat i) signal 0%Q.

(** [s >= threshold_min and s <= threshold_max] *)
Definition in_band (s : Q) : bool :=
  Qle_bool threshold_min s && Qle_bool s threshold_max.

(** [s1 < threshold_min or s1 > threshold_max] *)
Definition out_band (s1 : Q) : bool :=
  qlt s1 threshold_min || qlt threshold_max s1.

(** The inner [while comp1 < end_roi] loop started at [start]. It returns
    the final value of [comp1] and the interval appended, if any. [k]
    bounds the number of iterations; it is always called with
    [k >= end_roi - comp1], so the [O] case is only reached when
    [comp1 >= end_roi]. *)
Fixpoint inner_loop (k : nat) (start comp1 : Z) : Z * option (Z * Z) :=
  match k with
  | O => (comp1, None)
  | S k' =>
      if comp1 <? end_roi then
        let s1 := sample comp1 in
        if out_band s1 then
          let end_ := comp1 in
          if qlt signal_duration (zdt (end_ - start) dt)
          then (comp1, Some (start, end_))
          else (comp1, None)
        else
          if qlt signal_duration (zdt (comp1 - start) dt)
          then (comp1, Some (start, comp1))
          else inner_loop k' start (comp1 + 1)
      else (comp1, None)
  end.

(** One iteration of the outer [while comp < end_roi] loop: next value of
    [comp] and the interval appended, if any. *)
Definition scan_step (comp : Z) : Z * option (Z * Z) :=
  if in_band (sample comp)
  then inner_loop (Z.to_nat (end_roi - comp)) comp comp
  else (comp + 1, None).

Definition opt_list {A} (o : option A) : list A :=
  match o with Some x => [x] | None => [] end.

(** The outer loop; [fuel] bounds its iterations, [None] means that the
    loop was still running after [fuel] iterations. *)
Fixpoint outer_loop (fuel : nat) (comp : Z) (acc : list (Z * Z))
  : option (list (Z * Z)) :=
  match fuel with
  | O => None
  | S f =>
      if comp <? end_roi then
        let (c, o) := scan_step comp in
        outer_loop f c (acc ++ opt_list o)
      else Some acc
  end.

End Scan.

(** The scan of one ROI: window and thresholds read from its corners. *)
Definition scan_roi (signal : list Q) (dt duration : Q) (fuel : nat) (r : ROI)
  : option (list (Z * Z)) :=
  outer_loop signal dt duration (snd (lower_corner r)) (snd (upper_corner r))
    (roi_end signal dt r) fuel (roi_start dt r) [].

(** ** Chunked maximal runs

    The intervals of the corrected C1, defined from its wording: the window
    [[lo, hi)] is cut into maximal runs of consecutive in-band samples, and
    each run [[a, b)] contributes the consecutive chunks
    [[a + i*L, a + (i+1)*L)] whose end is at most [b] and below [hi], where
    [L] is the least integer length with [L*dt > D]. *)

Section Chunks.

Variable signal : list Q.
Variables dt D tmin tmax : Q.
Variable hi : Z.

(** [floor(D/dt) + 1]: the least integer [L] with [L*dt > D] when [dt > 0]. *)
Definition chunk_len : Z := Qfloor (D / dt) + 1.

Fixpoint run_end_k (k : nat) (j : Z) : Z :=
  match k with
  | O => j
  | S k' =>
      if (j <? hi) && in_band tmin tmax (sample signal j) then run_end_k k' (j + 1) else j
  end.

(** End of the maximal in-band run entered at [j]: the first index [>= j]
    that is out of band or equal to [hi]. *)
Definition run_end (j : Z) : Z := run_end_k (Z.to_nat (hi - j)) j.

(** The chunks of the run [[a, b)]. *)
Definition run_chunks (a b : Z) : list (Z * Z) :=
  map (fun i => (a + Z.of_nat i * chunk_len, a + Z.of_nat (S i) * chunk_len))
    (seq 0 (Z.to_nat ((Z.min b (hi - 1) - a) / chunk_len))).

(** The runs of [[pos, hi)], in order, each replaced by its chunks. *)
Fixpoint chunked_runs (fuel : nat) (pos : Z) : list (Z * Z) :=
  match fuel with
  | O => []
  | S f =>
      if pos <? hi then
        if in_band tmin tmax (sample signal pos)
        then run_chunks pos (run_end pos) ++ chunked_runs f (run_end pos + 1)
        else chunked_runs f (pos + 1)
      else []
  end.

End Chunks.

(** The chunked runs of the clamped window of a ROI. *)
Definition chunked_scan (signal : list Q) (dt D : Q) (r : ROI) : list (Z * Z) :=
  chunked_runs signal dt D (snd (lower_corner r)) (snd (upper_corner r))
    (roi_end signal dt r) (S (Z.to_nat (roi_end signal dt r - roi_start dt r)))
    (roi_start dt r).

(** ** Exclusion pass (second loop of [update_valid_intervals]) *)

Section Filter.

Variable signal : list Q.
Variables dt signal_separation : Q.

(** [end >= start_roi and start <= end_roi] for the clamped window of an
    excluded zone. *)
Definition overlaps (c : Z * Z) (z : ROI) : bool :=
  (roi_start dt z <=? snd c) && (fst c <=? roi_end signal dt z).

(** [for roi in self._excluded_zones.values(): ... break]: [true] when the
    loop breaks, [false] when it runs to completion (the [else] branch). *)
Fixpoint zones_loop (zones : list ROI) (c : Z * Z) : bool :=
  match zones with
  | [] => false
  | z :: zs => if overlaps c z then true else zones_loop zs c
  end.

(** [for start, end in intervals: ... else: valid_intervals.append((start,end))] *)
Fixpoint exclusion_loop (zones : list ROI) (intervals acc : list (Z * Z))
  : list (Z * Z) :=
  match intervals with
  | [] => acc
  | c :: cs =>
      if zones_loop zones c then exclusion_loop zones cs acc
      else exclusion_loop zones cs (acc ++ [c])
  end.

Definition exclusion_pass (zones : list ROI) (intervals : list (Z * Z)) :=
  exclusion_loop zones intervals [].

(** ** Separation pass (third loop of [update_valid_intervals]) *)

Definition dflt : Z * Z := (0, 0).

(** [(next_interval[0] - current_interval[1])*self._dt >= self._signal_separation] *)
Definition far_enough (current next : Z * Z) : bool :=
  Qle_bool signal_separation (zdt (fst next - snd current) dt).

(** Inner [while comp1 < n_intervals]: [Some comp1] when it breaks (the
    interval [comp1] is kept), [None] when it runs to completion.
    [fuel] bounds the iterations (called with [n_intervals]). *)
Fixpoint sep_inner (v : list (Z * Z)) (current : Z * Z) (fuel comp1 : nat)
  : option nat :=
  match fuel with
  | O => None
  | S f =>
      if Nat.ltb comp1 (length v) then
        if far_enough current (nth comp1 v dflt) then Some comp1
        else sep_inner v current f (S comp1)
      else None
  end.

(** Outer [while comp < n_intervals - 1]; [comp] strictly increases at each
    iteration, so [n_intervals] iterations suffice. *)
Fixpoint sep_outer (v : list (Z * Z)) (fuel comp : nat) (temp : list (Z * Z))
  : list (Z * Z) :=
  match fuel with
  | O => temp
  | S f =>
      if Nat.ltb comp (length v - 1) then
        let current_interval := nth comp v dflt in
        match sep_inner v current_interval (length v) (S comp) with
        | Some comp1 => sep_outer v f comp1 (temp ++ [nth comp1 v dflt])
        | None => sep_outer v f (S comp) temp
        end
      else temp
  end.

Definition separation_pass (valid_intervals : list (Z * Z)) : list (Z * Z) :=
  if Nat.leb 2 (length valid_intervals)
  then sep_outer valid_intervals (length valid_intervals) 0
         [nth 0 valid_intervals dflt]
  else valid_intervals.

(** The greedy thinning described by the specification (section 4.3): keep
    the first interval; keep a later candidate iff it starts at least
    [signal_separation] seconds after the end of the last kept one, which
    then becomes the last kept one. *)
Fixpoint greedy_thin (last : Z * Z) (l : list (Z * Z)) : list (Z * Z) :=
  match l with
  | [] => []
  | c :: r =>
      if far_enough last c then c :: greedy_thin c r else greedy_thin last r
  end.

Definition greedy_separation (l : list (Z * Z)) : list (Z * Z) :=
  match l with
  | [] => []
  | x :: r => x :: greedy_thin x r
  end.

End Filter.


(** ** Reader state *)

(** The attributes of an [EDFFileReader] used by the interval search;
    ordered dicts are association lists in insertion order. *)
Record reader := mkReader {
  r_signal : list Q;
  r_dt : Q;
  r_signal_duration : Q;
  r_signal_separation : Q;
  r_valid_intervals : list (string * list (Z * Z));
  r_rois : list (string * ROI);
  r_excluded_zones : list (string * ROI)
}.

Definition set_signal_duration (st : reader) (d : Q) : reader :=
  mkReader (r_signal st) (r_dt st) d (r_signal_separation st)
    (r_valid_intervals st) (r_rois st) (r_excluded_zones st).

Definition set_signal_separation (st : reader) (s : Q) : reader :=
  mkReader (r_signal st) (r_dt st) (r_signal_duration st) s
    (r_valid_intervals st) (r_rois st) (r_excluded_zones st).

Definition set_valid_intervals (st : reader) (v : list (string * list (Z * Z)))
  : reader :=
  mkReader (r_signal st) (r_dt st) (r_signal_duration st)
    (r_signal_separation st) v (r_rois st) (r_excluded_zones st).

(** [d[key] = value] on an ordered dict: an existing key keeps its place. *)
Fixpoint assoc_set {A} (d : list (string * A)) (key : string) (value : A)
  : list (string * A) :=
  match d with
  | [] => [(key, value)]
  | (k, v) :: d' =>
      if String.eqb k key then (k, value) :: d' else (k, v) :: assoc_set d' key value
  end.

(** ** [update_valid_intervals] *)

(** First loop: [for name, roi in self._rois.items()]. [None] when one scan
    is still running after [fuel] iterations of its outer loop. *)
Fixpoint scan_rois (signal : list Q) (dt duration : Q) (fuel : nat)
  (rois : list (string * ROI)) (valid : list (string * list (Z * Z)))
  : option (list (string * list (Z * Z))) :=
  match rois with
  | [] => Some valid
  | (name, roi) :: rs =>
      match scan_roi signal dt duration fuel roi with
      | Some l => scan_rois signal dt duration fuel rs (assoc_set valid name l)
      | None => None
      end
  end.

(** Second loop: [for name, intervals in self._valid_intervals.items()],
    exclusion pass then separation pass. *)
Definition filter_all (signal : list Q) (dt separation : Q) (zones : list ROI)
  (valid : list (string * list (Z * Z))) : list (string * list (Z * Z)) :=
  map (fun '(name, intervals) =>
         (name, separation_pass dt separation
                  (exclusion_pass signal dt zones intervals))) valid.

Definition update_valid_intervals (fuel : nat) (st : reader) : option reader :=
  match scan_rois (r_signal st) (r_dt st) (r_signal_duration st) fuel
          (r_rois st) (r_valid_intervals st) with
  | Some v =>
      Some (set_valid_intervals st
              (filter_all (r_signal st) (r_dt st) (r_signal_separation st)
                 (map snd (r_excluded_zones st)) v))
  | None => None
  end.

(** ** The [parameters] setter *)

(** Python values found in the parameters mapping. *)
Inductive pyval :=
| PyInt (z : Z)
| PyFloat (q : Q)
| PyStr (s : string).

Inductive py_error := ValueError | EDFFileReaderError.

Definition digit_val (c : ascii) : option Z :=
  let n := Z.of_nat (nat_of_ascii c) in
  if (48 <=? n) && (n <=? 57) then Some (n - 48) else None.

(** Leading decimal digits: (value, number of digits, rest). *)
Fixpoint take_digits (l : list ascii) (acc : Z) (cnt : nat)
  : Z * nat * list ascii :=
  match l with
  | c :: l' =>
      match digit_val c with
      | Some d => take_digits l' (10 * acc + d) (S cnt)
      | None => (acc, cnt, l)
      end
  | [] => (acc, cnt, l)
  end.

(** [float(s)] for a string, restricted to the decimal syntax
    [[+-]digits[.digits]] (at least one digit), which is what the parameter
    dialog produces; this model raises [ValueError] on every other string,
    whereas Python's [float] also accepts surrounding whitespace, exponents
    (['1e3']), digit separators (['1_0']), ['inf'] and ['nan']. *)
Definition parse_float (s : string) : option Q :=
  let l := list_ascii_of_string s in
  let '(sgn, l1) :=
    match l with
    | "-"%char :: r => ((-1)%Z, r)
    | "+"%char :: r => (1%Z, r)
    | _ => (1%Z, l)
    end in
  let '(ip, ni, l2) := take_digits l1 0 0 in
  let '(fp, nf, l3) :=
    match l2 with
    | "."%char :: r => take_digits r 0 0
    | _ => (0, O, l2)
    end in
  match l3, (ni + nf)%nat with
  | [], S _ => Some (inject_Z (sgn * (ip * 10 ^ Z.of_nat nf + fp))
                     / inject_Z (10 ^ Z.of_nat nf))%Q
  | _, _ => None
  end.

Definition py_float (v : pyval) : Q + py_error :=
  match v with
  | PyInt z => inl (inject_Z z)
  | PyFloat q => inl q
  | PyStr s => match parse_float s with Some q => inl q | None => inr ValueError end
  end.

(** [params.get(key, default)] *)
Fixpoint dict_get (params : list (string * pyval)) (key : string) (default : pyval)
  : pyval :=
  match params with
  | [] => default
  | (k, v) :: ps => if String.eqb k key then v else dict_get ps key default
  end.

(** The setter: the exception raised, if any, and the reader state after the
    call (Python keeps the attribute assignments done before the raise). *)
Definition set_parameters (params : list (string * pyval)) (st : reader)
  : option py_error * reader :=
  match py_float (dict_get params "signal duration" (PyInt 5)) with
  | inr _ => (Some EDFFileReaderError, st)
  | inl d =>
      let st1 := set_signal_duration st d in
      match py_float (dict_get params "signal separation" (PyInt 15)) with
      | inr _ => (Some EDFFileReaderError, st1)
      | inl sep => (None, set_signal_separation st1 sep)
      end
  end.

(** ** Normalisation in [EDFFileReader.__init__] *)

(** numpy float64 values reached by the normalisation of a finite signal. *)
Inductive f64 := Fin (q : Q) | NaN | PInf | NInf.

Definition f_sub (a b : f64) : f64 :=
  match a, b with
  | Fin x, Fin y => Fin (x - y)
  | NaN, _ | _, NaN => NaN
  | PInf, PInf | NInf, NInf => NaN
  | PInf, _ | _, NInf => PInf
  | NInf, _ | _, PInf => NInf
  end.

Definition f_neg (a : f64) : f64 :=
  match a with Fin x => Fin (- x) | NaN => NaN | PInf => NInf | NInf => PInf end.

Definition f_div (a b : f64) : f64 :=
  match a, b with
  | Fin x, Fin y =>
      if Qeq_bool y 0 then
        (if Qeq_bool x 0 then NaN else if Qle_bool 0 x then PInf else NInf)
      else Fin (x / y)
  | NaN, _ | _, NaN => NaN
  | Fin _, _ => Fin 0
  | _, Fin y => if Qle_bool 0 y then a else f_neg a
  | _, _ => NaN
  end.

Definition f_mul (a b : f64) : f64 :=
  match a, b with
  | Fin x, Fin y => Fin (x * y)
  | NaN, _ | _, NaN => NaN
  | Fin x, i | i, Fin x =>
      if Qeq_bool x 0 then NaN else if Qle_bool 0 x then i else f_neg i
  | PInf, PInf | NInf, NInf => PInf
  | _, _ => NInf
  end.

Definition list_min (l : list Q) : Q :=
  match l with [] => 0 | x :: r => fold_left Qmin r x end.
Definition list_max (l : list Q) : Q :=
  match l with [] => 0 | x :: r => fold_left Qmax r x end.

(** [signal -= mini; signal /= (maxi-mini); signal -= 0.5; signal *= 2.0];
    [min()] of an empty array raises [ValueError]. *)
Definition normalize (raw : list Q) : list f64 + py_error :=
  match raw with
  | [] => inr ValueError
  | _ =>
      let mini := list_min raw in
      let maxi := list_max raw in
      inl (map (fun s =>
             f_mul (f_sub (f_div (f_sub (Fin s) (Fin mini)) (Fin (maxi - mini)))
                          (Fin (1 # 2))) (Fin 2)) raw)
  end.


(** [raw] is left unchanged (up to equality of rationals) by the
    normalisation: it can be the [self._signal] of a reader. *)
Definition normalized_fixpoint (raw : list Q) : bool :=
  match normalize raw with
  | inl out =>
      Nat.eqb (length out) (length raw) &&
      forallb (fun p => match fst p with Fin x => Qeq_bool x (snd p) | _ => false end)
        (combine out raw)
  | inr _ => false
  end.

(** ** ROI containers of the reader *)

(** [key in d] *)
Definition in_keys {A} (d : list (string * A)) (key : string) : bool :=
  existsb (fun p => String.eqb (fst p) key) d.

(** [d.get(key)] *)
Fixpoint dict_lookup {A} (d : list (string * A)) (key : string) : option A :=
  match d with
  | [] => None
  | (k, v) :: d' => if String.eqb k key then Some v else dict_lookup d' key
  end.

(** [del d[key]]; [None] when Python raises [KeyError]. *)
Fixpoint dict_del {A} (d : list (string * A)) (key : string) : option (list (string * A)) :=
  match d with
  | [] => None
  | (k, v) :: d' =>
      if String.eqb k key then Some d' else option_map (cons (k, v)) (dict_del d' key)
  end.

Inductive dict_error := KeyError.

Definition set_rois (st : reader) (rois : list (string * ROI))
  (v : list (string * list (Z * Z))) : reader :=
  mkReader (r_signal st) (r_dt st) (r_signal_duration st) (r_signal_separation st)
    v rois (r_excluded_zones st).

Definition set_excluded_zones (st : reader) (zones : list (string * ROI)) : reader :=
  mkReader (r_signal st) (r_dt st) (r_signal_duration st) (r_signal_separation st)
    (r_valid_intervals st) (r_rois st) zones.

(** [EDFFileReader.add_roi] (the [isinstance] test always holds here). *)
Definition add_roi (name : string) (roi : ROI) (st : reader) : reader :=
  if in_keys (r_rois st) name then st
  else set_rois st (assoc_set (r_rois st) name roi)
         (assoc_set (r_valid_intervals st) name []).

(** [EDFFileReader.delete_roi]: [del self._rois[name]] then
    [del self._valid_intervals[name]], which raises [KeyError] when the
    name has no interval list. *)
Definition delete_roi (name : string) (st : reader) : option dict_error * reader :=
  if negb (in_keys (r_rois st) name) then (None, st)
  else
    let rois := match dict_del (r_rois st) name with Some d => d | None => r_rois st end in
    match dict_del (r_valid_intervals st) name with
    | Some v => (None, set_rois st rois v)
    | None => (Some KeyError, set_rois st rois (r_valid_intervals st))
    end.

(** [EDFFileReader.add_excluded_zone] *)
Definition add_excluded_zone (name : string) (roi : ROI) (st : reader) : reader :=
  if in_keys (r_excluded_zones st) name then st
  else set_excluded_zones st (assoc_set (r_excluded_zones st) name roi).

(** [EDFFileReader.delete_excluded_zone] *)
Definition delete_excluded_zone (name : string) (st : reader) : reader :=
  match dict_del (r_excluded_zones st) name with
  | Some d => set_excluded_zones st d
  | None => st
  end.

(** Interval lists and ROIs have the same names in the same order, and no
    ROI name is repeated (what [add_roi] and [delete_roi] maintain). *)
Definition keys_ok (st : reader) : Prop :=
  map fst (r_valid_intervals st) = map fst (r_rois st) /\ NoDup (map fst (r_rois st)).

(** ** Parameters getter and the parameters dialog *)

(** The [parameters] getter. *)
Definition get_parameters (st : reader) : list (string * Q) :=
  [("signal duration", r_signal_duration st); ("signal separation", r_signal_separation st)].

(** [ParametersDialog.parameters]: two double spin boxes, two integer spin
    boxes and a line edit. *)
Definition dialog_parameters (tmin tmax : Q) (duration separation : Z) (zones : string)
  : list (string * pyval) :=
  [("threshold min", PyFloat tmin); ("threshold max", PyFloat tmax);
   ("signal duration", PyInt duration); ("signal separation", PyInt separation);
   ("exclusion zones", PyStr zones)].

(** ** Time axis, frequencies and band-pass mask *)

(** [np.arange(start, stop, step)]: [ceil((stop - start)/step)] values. *)
Definition arange (start stop step : Q) : list Q :=
  map (fun i => start + inject_Z (Z.of_nat i) * step)%Q
    (seq 0 (Z.to_nat (Qceiling ((stop - start) / step)))).

(** [self._times = np.arange(0, n_points*self._dt, self._dt)], computed in
    exact rational arithmetic. In float64 the computed length
    [ceil(n_points*dt/dt)] can exceed [n_points] by one (for instance
    [np.arange(0, 3*0.1, 0.1)] has 4 entries); the model is used only for
    the times at indices below [n_points], which both agree on. *)
Definition times_axis (n_points : nat) (dt : Q) : list Q :=
  arange 0 (inject_Z (Z.of_nat n_points) * dt) dt.

(** [np.fft.fftfreq(n, d)]: [[0, 1, ..., N-1, -(n//2), ..., -1] / (n*d)] with
    [N = (n-1)//2 + 1]; empty for [n = 0]. *)
Definition fftfreq (n : nat) (d : Q) : list Q :=
  match n with
  | O => []
  | S m =>
      let N := (m / 2 + 1)%nat in
      let p1 := map Z.of_nat (seq 0 N) in
      let p2 := map (fun i => Z.of_nat i - Z.of_nat (n / 2)) (seq 0 (n / 2)) in
      map (fun k => inject_Z k * (1 / (inject_Z (Z.of_nat n) * d)))%Q (p1 ++ p2)
  end.

(** [spectrum[mask] = 0] for a boolean mask computed from the frequencies,
    for a mask as long as the spectrum (numpy raises [IndexError] when the
    lengths differ; a difference of lengths is not modelled here and the
    properties below assume equal lengths). *)
Fixpoint zero_where {A} (zero : A) (test : Q -> bool) (freqs : list Q) (spectrum : list A)
  : list A :=
  match freqs, spectrum with
  | f :: fs, x :: xs => (if test f then zero else x) :: zero_where zero test fs xs
  | _, _ => spectrum
  end.

(** The two masking statements of [get_filtered_signal]:
    [spectrum[abs(freqs) < fmin] = 0; spectrum[abs(freqs) > fmax] = 0]. *)
Definition band_pass_mask {A} (zero : A) (freqs : list Q) (fmin fmax : Q) (spectrum : list A)
  : list A :=
  zero_where zero (fun f => qlt fmax (Qabs f)) freqs
    (zero_where zero (fun f => qlt (Qabs f) fmin) freqs spectrum).

(** [l[start:end]] for non-negative bounds. *)
Definition py_slice {A} (l : list A) (start end_ : Z) : list A :=
  firstn (Z.to_nat end_ - Z.to_nat start) (skipn (Z.to_nat start) l).

(** ** Concrete inputs *)

(** Ten samples at 0 and a ROI covering 0..10 s with the band [[-1, 1]]. *)
Definition sig10 : list Q := repeat 0%Q 10.
Definition roi10 : ROI := mkROI (0, -1)%Q (10, 1)%Q.

(** A reader on [sig10] with one ROI [roi10] and no excluded zone. *)
Definition reader10 : reader :=
  mkReader sig10 1 2 15 [("roi", [])] [("roi", roi10)] [].

(** A ROI whose amplitude corners are swapped, and a ROI of 3 s. *)
Definition roi_flipped : ROI := mkROI (0, 1)%Q (10, -1)%Q.
Definition roi_short : ROI := mkROI (0, -1)%Q (3, 1)%Q.

(** A normalised signal (minimum [-1], maximum [1]) with one in-band run
    [[1, 8)] for the band [[-1/2, 1/2]] of a ROI covering 0..10 s. *)
Definition sigC : list Q := [-1; 0; 0; 0; 0; 0; 0; 0; 1; 1]%Q.
Definition roiC : ROI := mkROI (0, -1 # 2)%Q (10, 1 # 2)%Q.

(** * Properties *)

(** ** Float comparisons *)

Lemma qlt_true (a b : Q) : qlt a b = true <-> (a < b)%Q.
Proof.
  unfold qlt. rewrite negb_true_iff. split; intro H.
  - apply Qnot_le_lt. intro Hle. apply Qle_bool_iff in Hle. congruence.
  - destruct (Qle_bool b a) eqn:E; [|reflexivity].
    apply Qle_bool_iff in E. exfalso. exact (Qlt_not_le _ _ H E).
Qed.

Lemma qlt_false (a b : Q) : qlt a b = false <-> (b <= a)%Q.
Proof.
  unfold qlt. rewrite negb_false_iff. apply Qle_bool_iff.
Qed.

Lemma zdt_0 (dt : Q) : (zdt 0 dt == 0)%Q.
Proof. unfold zdt. apply Qmult_0_l. Qed.

(** ** The segmentation scan *)

Section ScanFacts.

Variable signal : list Q.
Variables dt D tmin tmax : Q.
Variable end_roi : Z.

Local Notation smp := (sample signal).
Local Notation inb := (in_band tmin tmax).
Local Notation inner := (inner_loop signal dt D tmin tmax end_roi).
Local Notation step := (scan_step signal dt D tmin tmax end_roi).
Local Notation outer := (outer_loop signal dt D tmin tmax end_roi).

Lemma out_band_negb (s : Q) : out_band tmin tmax s = negb (inb s).
Proof.
  unfold out_band, in_band, qlt.
  destruct (Qle_bool tmin s), (Qle_bool s tmax); reflexivity.
Qed.

Lemma inner_mono (k : nat) (start comp1 : Z) : comp1 <= fst (inner k start comp1).
Proof.
  revert comp1. induction k as [|k IH]; intro comp1; simpl; [lia|].
  destruct (comp1 <? end_roi); simpl; [|lia].
  destruct (out_band tmin tmax (smp comp1)).
  - destruct (qlt D (zdt (comp1 - start) dt)); simpl; lia.
  - destruct (qlt D (zdt (comp1 - start) dt)); simpl; [lia|].
    specialize (IH (comp1 + 1)). lia.
Qed.

(** What the inner loop returns when it is entered at [comp1] with all the
    samples of [[start, comp1)] in band. *)
Lemma inner_spec (k : nat) (start comp1 : Z) :
  start <= comp1 -> end_roi - comp1 <= Z.of_nat k ->
  (forall i, start <= i < comp1 -> inb (smp i) = true) ->
  (comp1 = start \/ (zdt (comp1 - 1 - start) dt <= D)%Q) ->
  let r := inner k start comp1 in
  (comp1 <= end_roi -> fst r <= end_roi) /\
  match snd r with
  | Some x =>
      x = (start, fst r) /\ fst r < end_roi /\ (D < zdt (fst r - start) dt)%Q /\
      (fst r = start \/ (zdt (fst r - 1 - start) dt <= D)%Q) /\
      (forall i, start <= i < fst r -> inb (smp i) = true)
  | None => True
  end.
Proof.
  revert comp1. induction k as [|k IH]; intros comp1 Hs Hk Hin Hlow; simpl.
  - split; [lia | exact I].
  - destruct (comp1 <? end_roi) eqn:Hc; [apply Z.ltb_lt in Hc | simpl; split; [lia | exact I]].
    rewrite out_band_negb.
    destruct (inb (smp comp1)) eqn:Hb; simpl.
    + destruct (qlt D (zdt (comp1 - start) dt)) eqn:Hq.
      * simpl. split; [lia|]. apply qlt_true in Hq.
        repeat split; auto.
      * apply qlt_false in Hq.
        destruct (IH (comp1 + 1)) as [H1 H2]; [lia | lia | | |].
        -- intros i Hi. destruct (Z.eq_dec i comp1); [subst; exact Hb | apply Hin; lia].
        -- right. replace (comp1 + 1 - 1 - start) with (comp1 - start) by lia. exact Hq.
        -- split; [intros; apply H1; lia | exact H2].
    + destruct (qlt D (zdt (comp1 - start) dt)) eqn:Hq; simpl; split; try lia; try exact I.
      apply qlt_true in Hq. repeat split; auto.
Qed.

(** With a negative minimum duration the empty interval [(comp, comp)] is
    appended and [comp] does not move: the loop never ends. *)
Lemma outer_diverges (fuel : nat) (comp : Z) (acc : list (Z * Z)) :
  (D < 0)%Q -> comp < end_roi -> inb (smp comp) = true ->
  outer fuel comp acc = None.
Proof.
  intros HD Hc Hb. revert acc. induction fuel as [|f IH]; intro acc; [reflexivity|].
  simpl. replace (comp <? end_roi) with true by (symmetry; apply Z.ltb_lt; exact Hc).
  unfold scan_step. rewrite Hb.
  destruct (Z.to_nat (end_roi - comp)) as [|k] eqn:Ek; [lia|]. simpl.
  replace (comp <? end_roi) with true by (symmetry; apply Z.ltb_lt; exact Hc).
  rewrite out_band_negb, Hb. simpl.
  replace (qlt D (zdt (comp - comp) dt)) with true.
  - apply IH.
  - symmetry. apply qlt_true. rewrite Z.sub_diag, zdt_0. exact HD.
Qed.

(** Properties of an interval emitted by a scan resumed at [lo]. *)
Definition good (lo : Z) (x : Z * Z) : Prop :=
  lo <= fst x /\ fst x < snd x /\ snd x < end_roi /\
  (D < zdt (snd x - fst x) dt)%Q /\ (zdt (snd x - 1 - fst x) dt <= D)%Q /\
  (forall i, fst x <= i < snd x -> inb (smp i) = true).

Definition before (x y : Z * Z) : Prop := snd x <= fst y.

Lemma good_mono (lo lo' : Z) (x : Z * Z) : lo' <= lo -> good lo x -> good lo' x.
Proof. unfold good. intros H (H1 & H2). split; [lia | exact H2]. Qed.

Lemma outer_good (fuel : nat) (comp : Z) (acc l : list (Z * Z)) :
  outer fuel comp acc = Some l ->
  exists nw, l = acc ++ nw /\ StronglySorted before nw /\ Forall (good comp) nw.
Proof.
  revert comp acc. induction fuel as [|f IH]; intros comp acc H; [discriminate|].
  simpl in H. destruct (comp <? end_roi) eqn:Hc.
  2:{ injection H as <-. exists []. rewrite app_nil_r. repeat constructor. }
  apply Z.ltb_lt in Hc.
  destruct (step comp) as [c o] eqn:Hst. unfold scan_step in Hst.
  destruct (inb (smp comp)) eqn:Hb.
  - pose proof (inner_mono (Z.to_nat (end_roi - comp)) comp comp) as Hm.
    pose proof (inner_spec (Z.to_nat (end_roi - comp)) comp comp) as Hsp.
    rewrite Hst in Hm, Hsp. simpl in Hm, Hsp.
    destruct Hsp as [Hle Ho]; [lia | lia | intros; lia | left; reflexivity |].
    destruct o as [x|].
    + destruct Ho as (-> & Hlt & HD & Hlow & Hin).
      destruct (Z.eq_dec c comp) as [->|Hne].
      { rewrite Z.sub_diag, zdt_0 in HD.
        rewrite (outer_diverges f comp _ HD Hc Hb) in H. discriminate. }
      destruct (IH c _ H) as (nw & -> & Hss & Hgood).
      exists ((comp, c) :: nw). split; [simpl; rewrite <- app_assoc; reflexivity|].
      split.
      * constructor; [exact Hss|].
        eapply Forall_impl; [|exact Hgood]. intros y (Hy & _). unfold before. simpl. lia.
      * constructor.
        -- unfold good; simpl. repeat split; try lia; auto.
           destruct Hlow as [Hlow|Hlow]; [lia | exact Hlow].
        -- eapply Forall_impl; [|exact Hgood]. intros y. apply good_mono. lia.
    + destruct (IH c _ H) as (nw & -> & Hss & Hgood).
      exists nw. simpl. rewrite app_nil_r. split; [reflexivity|]. split; [exact Hss|].
      eapply Forall_impl; [|exact Hgood]. intros y. apply good_mono. lia.
  - injection Hst as <- <-.
    destruct (IH (comp + 1) _ H) as (nw & -> & Hss & Hgood).
    exists nw. simpl. rewrite app_nil_r. split; [reflexivity|]. split; [exact Hss|].
    eapply Forall_impl; [|exact Hgood]. intros y. apply good_mono. lia.
Qed.

(** A step of the outer loop strictly advances [comp] when [D >= 0]. *)
Lemma step_advances (comp : Z) :
  (0 <= D)%Q -> comp < end_roi -> comp < fst (step comp).
Proof.
  intros HD Hc. unfold scan_step.
  destruct (inb (smp comp)) eqn:Hb; simpl; [|lia].
  destruct (Z.to_nat (end_roi - comp)) as [|k] eqn:Ek; [lia|]. simpl.
  replace (comp <? end_roi) with true by (symmetry; apply Z.ltb_lt; exact Hc).
  rewrite out_band_negb, Hb. simpl.
  replace (qlt D (zdt (comp - comp) dt)) with false.
  - pose proof (inner_mono k comp (comp + 1)). lia.
  - symmetry. apply qlt_false. rewrite Z.sub_diag, zdt_0. exact HD.
Qed.

Lemma outer_terminates (fuel : nat) (comp : Z) (acc : list (Z * Z)) :
  (0 <= D)%Q -> Z.max 0 (end_roi - comp) < Z.of_nat fuel ->
  exists l, outer fuel comp acc = Some l.
Proof.
  intro HD. revert comp acc. induction fuel as [|f IH]; intros comp acc Hf; [lia|].
  simpl. destruct (comp <? end_roi) eqn:Hc; [|eexists; reflexivity].
  apply Z.ltb_lt in Hc.
  pose proof (step_advances comp HD Hc) as Ha.
  destruct (step comp) as [c o]. simpl in Ha. apply IH. lia.
Qed.

End ScanFacts.

(** ** The scan as chunked maximal runs *)

Lemma chunk_len_spec (dt D : Q) (k : Z) :
  (0 < dt)%Q -> qlt D (zdt k dt) = (chunk_len dt D <=? k).
Proof.
  intro Hdt. unfold chunk_len, zdt.
  assert (Hd0 : ~ dt == 0) by (intro H; rewrite H in Hdt; apply (Qlt_irrefl 0); exact Hdt).
  assert (E : (D < inject_Z k * dt)%Q <-> (D / dt < inject_Z k)%Q).
  { rewrite <- (Qmult_lt_r (D / dt) (inject_Z k) dt Hdt).
    setoid_replace (D / dt * dt)%Q with D by (field; exact Hd0). reflexivity. }
  pose proof (Qfloor_le (D / dt)) as Hf. pose proof (Qlt_floor (D / dt)) as Hf'.
  destruct (qlt D (inject_Z k * dt)) eqn:Hq; symmetry.
  - apply qlt_true, E in Hq. apply Z.leb_le.
    assert (Hz : (inject_Z (Qfloor (D / dt)) < inject_Z k)%Q) by (eapply Qle_lt_trans; eassumption).
    rewrite <- Zlt_Qlt in Hz. lia.
  - apply qlt_false in Hq. apply Z.leb_gt.
    destruct (Z.le_gt_cases k (Qfloor (D / dt))) as [H|H]; [lia|]. exfalso.
    assert (Hz : (inject_Z (Qfloor (D / dt) + 1) <= inject_Z k)%Q) by (rewrite <- Zle_Qle; lia).
    assert (H2 : (D / dt < inject_Z k)%Q) by (eapply Qlt_le_trans; eassumption).
    apply E in H2. exact (Qlt_not_le _ _ H2 Hq).
Qed.

Lemma chunk_len_pos (dt D : Q) : (0 < dt)%Q -> (0 <= D)%Q -> 1 <= chunk_len dt D.
Proof.
  intros Hdt HD. unfold chunk_len.
  assert (H : (0 <= D / dt)%Q) by (apply Qle_shift_div_l; [exact Hdt | rewrite Qmult_0_l; exact HD]).
  apply Qfloor_resp_le in H. change (Qfloor 0) with 0 in H. lia.
Qed.

Section RunEnd.

Variable signal : list Q.
Variables tmin tmax : Q.
Variable hi : Z.

Local Notation inb := (in_band tmin tmax).
Local Notation smp := (sample signal).
Local Notation rend := (run_end signal tmin tmax hi).

Lemma run_end_k_spec (k : nat) (j : Z) :
  hi - j <= Z.of_nat k ->
  let e := run_end_k signal tmin tmax hi k j in
  j <= e /\ e <= Z.max j hi /\
  (forall i, j <= i < e -> i < hi /\ inb (smp i) = true) /\
  (hi <= e \/ inb (smp e) = false).
Proof.
  revert j. induction k as [|k IH]; intros j Hk; simpl.
  - split; [lia|]. split; [lia|]. split; [intros i Hi; lia | left; lia].
  - destruct (Z.ltb_spec j hi) as [Hj|Hj]; simpl.
    + destruct (inb (smp j)) eqn:Hb.
      * destruct (IH (j + 1)) as (H1 & H2 & H3 & H4); [lia|].
        split; [lia|]. split; [lia|]. split; [|exact H4].
        intros i Hi. destruct (Z.eq_dec i j) as [->|Hne]; [split; [lia | exact Hb]|].
        apply H3. lia.
      * split; [lia|]. split; [lia|]. split; [intros i Hi; lia | right; exact Hb].
    + split; [lia|]. split; [lia|]. split; [intros i Hi; lia | left; lia].
Qed.

Lemma run_end_spec (j : Z) :
  j <= rend j /\ rend j <= Z.max j hi /\
  (forall i, j <= i < rend j -> i < hi /\ inb (smp i) = true) /\
  (hi <= rend j \/ inb (smp (rend j)) = false).
Proof. apply run_end_k_spec. lia. Qed.

(** [run_end] is the only index with the properties of [run_end_spec]. *)
Lemma run_end_k_unique (k : nat) (j e : Z) :
  hi - j <= Z.of_nat k -> j <= e ->
  (forall i, j <= i < e -> i < hi /\ inb (smp i) = true) ->
  (hi <= e \/ inb (smp e) = false) ->
  run_end_k signal tmin tmax hi k j = e.
Proof.
  revert j. induction k as [|k IH]; intros j Hk Hje Hin Hstop; simpl.
  - destruct (Z.eq_dec j e) as [|Hne]; [assumption|].
    destruct (Hin j) as [Hj _]; lia.
  - destruct (Z.ltb_spec j hi) as [Hj|Hj]; simpl.
    + destruct (inb (smp j)) eqn:Hb.
      * destruct (Z.eq_dec j e) as [->|Hne].
        { destruct Hstop as [Hs|Hs]; [lia | congruence]. }
        apply IH; try lia; [intros i Hi; apply Hin; lia | exact Hstop].
      * destruct (Z.eq_dec j e) as [|Hne]; [assumption|].
        destruct (Hin j) as [_ Hj']; [lia | congruence].
    + destruct (Z.eq_dec j e) as [|Hne]; [assumption|].
      destruct (Hin j) as [Hj' _]; lia.
Qed.

Lemma run_end_mid (j p : Z) : j <= p < rend j -> rend p = rend j.
Proof.
  intro Hp. destruct (run_end_spec j) as (H1 & H2 & H3 & H4).
  apply run_end_k_unique; try lia; [intros i Hi; apply H3; lia | exact H4].
Qed.

Lemma run_end_next (j : Z) : j < hi -> inb (smp j) = true -> rend j = rend (j + 1).
Proof.
  intros Hj Hb. destruct (run_end_spec (j + 1)) as (H1 & H2 & H3 & H4).
  apply run_end_k_unique; [lia | lia | | exact H4].
  intros i Hi. destruct (Z.eq_dec i j) as [->|Hne]; [split; [lia | exact Hb] | apply H3; lia].
Qed.

Lemma run_end_out (j : Z) : (hi <= j \/ inb (smp j) = false) -> rend j = j.
Proof. intro H. apply run_end_k_unique; [lia | lia | intros i Hi; lia | exact H]. Qed.

End RunEnd.

Lemma run_chunks_cons (dt D : Q) (hi a b : Z) :
  1 <= chunk_len dt D -> a + chunk_len dt D <= Z.min b (hi - 1) ->
  run_chunks dt D hi a b = (a, a + chunk_len dt D) :: run_chunks dt D hi (a + chunk_len dt D) b.
Proof.
  intros HL Hab. unfold run_chunks. set (L := chunk_len dt D) in *.
  set (m := Z.min b (hi - 1)) in *.
  assert (Hd : (m - a) / L = 1 + (m - (a + L)) / L).
  { replace (m - a) with (1 * L + (m - (a + L))) by lia. apply Z.div_add_l. lia. }
  assert (Hpos : 0 <= (m - (a + L)) / L) by (apply Z.div_pos; lia).
  rewrite Hd. replace (Z.to_nat (1 + (m - (a + L)) / L)) with (S (Z.to_nat ((m - (a + L)) / L))) by lia.
  cbn [seq map]. f_equal; [simpl Z.of_nat; f_equal; lia|].
  rewrite <- seq_shift, map_map. apply map_ext. intro i.
  rewrite !Nat2Z.inj_succ. f_equal; ring.
Qed.

Lemma run_chunks_nil (dt D : Q) (hi a b : Z) :
  1 <= chunk_len dt D -> ~ (a + chunk_len dt D <= Z.min b (hi - 1)) ->
  run_chunks dt D hi a b = [].
Proof.
  intros HL Hab. unfold run_chunks.
  assert (H : (Z.min b (hi - 1) - a) / chunk_len dt D < 1) by (apply Z.div_lt_upper_bound; lia).
  replace (Z.to_nat ((Z.min b (hi - 1) - a) / chunk_len dt D)) with 0%nat by lia.
  reflexivity.
Qed.

Section ChunkFacts.

Variable signal : list Q.
Variables dt D tmin tmax : Q.
Variable hi : Z.
Hypothesis Hdt : (0 < dt)%Q.
Hypothesis HD : (0 <= D)%Q.

Local Notation smp := (sample signal).
Local Notation inb := (in_band tmin tmax).
Local Notation inner := (inner_loop signal dt D tmin tmax hi).
Local Notation outer := (outer_loop signal dt D tmin tmax hi).
Local Notation L := (chunk_len dt D).
Local Notation rend := (run_end signal tmin tmax hi).
Local Notation chunks := (run_chunks dt D hi).
Local Notation refr := (chunked_runs signal dt D tmin tmax hi).

Lemma L_pos : 1 <= L.
Proof. apply chunk_len_pos; assumption. Qed.

(** The inner loop entered at [comp1] inside a run started at [start]
    returns the first chunk of the run, if it fits, or the end of the run. *)
Lemma inner_chunk (k : nat) (start comp1 : Z) :
  start <= comp1 <= start + L -> hi - comp1 <= Z.of_nat k ->
  inner k start comp1 =
  if (start + L <=? rend comp1) && (start + L <? hi)
  then (start + L, Some (start, start + L)) else (rend comp1, None).
Proof.
  revert comp1. induction k as [|k IH]; intros comp1 Hc Hk.
  - simpl. rewrite run_end_out by (left; lia).
    replace (start + L <? hi) with false by (symmetry; apply Z.ltb_ge; lia).
    rewrite andb_false_r. reflexivity.
  - simpl. destruct (Z.ltb_spec comp1 hi) as [Hlt|Hge].
    + rewrite out_band_negb, chunk_len_spec by exact Hdt.
      destruct (inb (smp comp1)) eqn:Hb; simpl.
      * destruct (Z.eq_dec comp1 (start + L)) as [->|Hne].
        -- replace (L <=? start + L - start) with true by (symmetry; apply Z.leb_le; lia).
           replace (start + L <? hi) with true by (symmetry; apply Z.ltb_lt; lia).
           rewrite andb_true_r.
           destruct (run_end_spec signal tmin tmax hi (start + L)) as (H1 & _).
           replace (start + L <=? rend (start + L)) with true by (symmetry; apply Z.leb_le; lia).
           reflexivity.
        -- replace (L <=? comp1 - start) with false by (symmetry; apply Z.leb_gt; lia).
           rewrite IH by lia.
           rewrite (run_end_next signal tmin tmax hi comp1 Hlt Hb). reflexivity.
      * rewrite run_end_out by (right; exact Hb).
        destruct (Z.eq_dec comp1 (start + L)) as [->|Hne].
        -- replace (L <=? start + L - start) with true by (symmetry; apply Z.leb_le; lia).
           replace (start + L <? hi) with true by (symmetry; apply Z.ltb_lt; lia).
           rewrite Z.leb_refl. reflexivity.
        -- replace (L <=? comp1 - start) with false by (symmetry; apply Z.leb_gt; lia).
           replace (start + L <=? comp1) with false by (symmetry; apply Z.leb_gt; lia).
           reflexivity.
    + rewrite run_end_out by (left; lia).
      replace (start + L <? hi) with false by (symmetry; apply Z.ltb_ge; lia).
      rewrite andb_false_r. reflexivity.
Qed.

(** Entered at the start [pos] of a run, the outer loop emits the chunks of
    the run and resumes just after the sample that ends it. *)
Lemma outer_run (n : nat) (pos : Z) (acc : list (Z * Z)) :
  pos < hi -> inb (smp pos) = true -> hi - pos < Z.of_nat n ->
  exists n', (n' < n)%nat /\ Z.max 0 (hi - (rend pos + 1)) < Z.of_nat n' /\
    outer n pos acc = outer n' (rend pos + 1) (acc ++ chunks pos (rend pos)).
Proof.
  pose proof L_pos as HL.
  revert pos acc. induction n as [|n0 IH]; intros pos acc Hp Hb Hn; [lia|].
  destruct (run_end_spec signal tmin tmax hi pos) as (H1 & H2 & H3 & H4).
  set (b := rend pos) in *.
  assert (Hb1 : pos < b) by (destruct (Z.eq_dec pos b) as [He|]; [rewrite <- He in H4; destruct H4; [lia | congruence] | lia]).
  cbn [outer_loop]. replace (pos <? hi) with true by (symmetry; apply Z.ltb_lt; exact Hp).
  unfold scan_step. rewrite Hb.
  rewrite inner_chunk by lia. fold b.
  destruct ((pos + L <=? b) && (pos + L <? hi)) eqn:Hc.
  - apply andb_true_iff in Hc as [Hc1 Hc2]. apply Z.leb_le in Hc1. apply Z.ltb_lt in Hc2.
    simpl. rewrite (run_chunks_cons dt D hi pos b HL) by lia.
    destruct (Z.eq_dec (pos + L) b) as [He|Hne].
    + rewrite He in *. destruct H4 as [H4|H4]; [lia|].
      destruct n0 as [|n1]; [lia|].
      exists n1. split; [lia|]. split; [lia|].
      cbn [outer_loop]. replace (b <? hi) with true by (symmetry; apply Z.ltb_lt; lia).
      unfold scan_step. rewrite H4. simpl.
      rewrite (run_chunks_nil dt D hi b b HL) by lia. rewrite !app_nil_r. reflexivity.
    + destruct (H3 (pos + L)) as [Hq1 Hq2]; [lia|].
      destruct (IH (pos + L) (acc ++ [(pos, pos + L)]) Hq1 Hq2) as (n' & Hn1 & Hn2 & Heq); [lia|].
      rewrite (run_end_mid signal tmin tmax hi pos (pos + L)) in Hn2, Heq by lia. fold b in Hn2, Heq.
      exists n'. split; [lia|]. split; [exact Hn2|].
      rewrite Heq, <- app_assoc. reflexivity.
  - rewrite (run_chunks_nil dt D hi pos b HL).
    2:{ apply andb_false_iff in Hc as [Hc|Hc]; [apply Z.leb_gt in Hc | apply Z.ltb_ge in Hc]; lia. }
    simpl. destruct n0 as [|n1]; [lia|].
    destruct (Z.ltb_spec b hi) as [Hlt|Hge].
    + destruct H4 as [H4|H4]; [lia|].
      exists n1. split; [lia|]. split; [lia|].
      cbn [outer_loop]. replace (b <? hi) with true by (symmetry; apply Z.ltb_lt; lia).
      unfold scan_step. rewrite H4. simpl. rewrite !app_nil_r. reflexivity.
    + exists 1%nat. split; [lia|]. split; [lia|].
      cbn [outer_loop].
      replace (b <? hi) with false by (symmetry; apply Z.ltb_ge; lia).
      replace (b + 1 <? hi) with false by (symmetry; apply Z.ltb_ge; lia).
      reflexivity.
Qed.

Lemma outer_chunked (n : nat) : forall (pos : Z) (acc : list (Z * Z)) (f : nat),
  Z.max 0 (hi - pos) < Z.of_nat n -> Z.max 0 (hi - pos) < Z.of_nat f ->
  outer n pos acc = Some (acc ++ refr f pos).
Proof.
  induction n as [n IH] using (well_founded_induction lt_wf).
  intros pos acc f Hn Hf.
  destruct f as [|f0]; [lia|]. cbn [chunked_runs].
  destruct (Z.ltb_spec pos hi) as [Hp|Hp].
  - destruct (inb (smp pos)) eqn:Hb.
    + destruct (outer_run n pos acc Hp Hb) as (n' & Hn1 & Hn2 & ->); [lia|].
      destruct (run_end_spec signal tmin tmax hi pos) as (_ & _ & _ & H4).
      destruct (run_end_spec signal tmin tmax hi pos) as (H1 & _).
      assert (rend pos <> pos) by (intro He; rewrite He in H4; destruct H4; [lia | congruence]).
      rewrite (IH n' Hn1 (rend pos + 1) _ f0 Hn2) by lia.
      rewrite app_assoc. reflexivity.
    + destruct n as [|n0]; [lia|]. cbn [outer_loop].
      replace (pos <? hi) with true by (symmetry; apply Z.ltb_lt; exact Hp).
      unfold scan_step. rewrite Hb. simpl. rewrite app_nil_r.
      apply IH; lia.
  - destruct n as [|n0]; [lia|]. cbn [outer_loop].
    replace (pos <? hi) with false by (symmetry; apply Z.ltb_ge; exact Hp).
    rewrite app_nil_r. reflexivity.
Qed.

End ChunkFacts.

(** ** Lists of intervals *)

Lemma skipn_nth {A} (l : list A) (i : nat) (d : A) :
  (i < length l)%nat -> skipn i l = nth i l d :: skipn (S i) l.
Proof.
  revert i. induction l as [|x l IH]; intros i Hi; simpl in Hi; [lia|].
  destruct i as [|i]; [reflexivity|]. simpl. apply IH. lia.
Qed.

Lemma StronglySorted_nth {A} (R : A -> A -> Prop) (l : list A) (d : A) (i j : nat) :
  StronglySorted R l -> (i < j < length l)%nat -> R (nth i l d) (nth j l d).
Proof.
  revert i j. induction l as [|x l IH]; intros i j Hs Hij; simpl in Hij; [lia|].
  apply StronglySorted_inv in Hs as [Hs Hf].
  destruct i as [|i], j as [|j]; simpl; try lia.
  - rewrite Forall_forall in Hf. apply Hf. apply nth_In. lia.
  - apply IH; [exact Hs | lia].
Qed.

(** Ascending, pairwise disjoint half-open intervals. *)
Definition ascending_disjoint (l : list (Z * Z)) : Prop :=
  StronglySorted before l /\ Forall (fun x => fst x <= snd x) l.

Lemma ascending_ends (l : list (Z * Z)) (i j : nat) :
  ascending_disjoint l -> (i <= j < length l)%nat ->
  snd (nth i l dflt) <= snd (nth j l dflt).
Proof.
  intros [Hs Hw] Hij. destruct (Nat.eq_dec i j) as [->|Hne]; [lia|].
  pose proof (StronglySorted_nth before l dflt i j Hs ltac:(lia)) as Hb.
  unfold before in Hb. rewrite Forall_forall in Hw.
  assert (Hin : In (nth j l dflt) l) by (apply nth_In; lia).
  specialize (Hw _ Hin). lia.
Qed.

(** ** The separation pass *)

Section SepFacts.

Variables dt sep : Q.

Local Notation far := (far_enough dt sep).
Local Notation gthin := (greedy_thin dt sep).

(** A candidate far enough from a last interval ending later is far enough
    from one ending earlier. *)
Lemma far_mono (a b n : Z * Z) :
  (0 < dt)%Q -> snd a <= snd b -> far b n = true -> far a n = true.
Proof.
  intros Hdt Hab Hf. unfold far_enough, zdt in *. apply Qle_bool_iff in Hf.
  apply Qle_bool_iff. eapply Qle_trans; [exact Hf|].
  apply Qmult_le_compat_r; [| apply Qlt_le_weak; exact Hdt].
  rewrite <- Zle_Qle. lia.
Qed.

Lemma sep_inner_spec (v : list (Z * Z)) (cur : Z * Z) (fuel i : nat) :
  (length v - i <= fuel)%nat ->
  match sep_inner dt sep v cur fuel i with
  | Some j =>
      (i <= j < length v)%nat /\ far cur (nth j v dflt) = true /\
      gthin cur (skipn i v) = nth j v dflt :: gthin (nth j v dflt) (skipn (S j) v)
  | None =>
      gthin cur (skipn i v) = [] /\
      (forall k, (i <= k < length v)%nat -> far cur (nth k v dflt) = false)
  end.
Proof.
  revert i. induction fuel as [|f IH]; intros i Hf; simpl.
  - rewrite skipn_all2 by lia. split; [reflexivity | intros; lia].
  - destruct (Nat.ltb i (length v)) eqn:Hi.
    + apply Nat.ltb_lt in Hi. rewrite (skipn_nth v i dflt Hi). simpl.
      destruct (far cur (nth i v dflt)) eqn:Hfar.
      * repeat split; auto; lia.
      * specialize (IH (S i) ltac:(lia)).
        destruct (sep_inner dt sep v cur f (S i)) as [j|].
        -- destruct IH as (Hj & Hfj & Heq). repeat split; auto; lia.
        -- destruct IH as (Heq & Hk). split; [exact Heq|].
           intros k Hk'. destruct (Nat.eq_dec k i) as [->|]; [exact Hfar | apply Hk; lia].
    + apply Nat.ltb_ge in Hi. rewrite skipn_all2 by lia. split; [reflexivity | intros; lia].
Qed.

(** Once no later interval is far enough from the current one, nothing more
    is kept. *)
Lemma sep_outer_stuck (v : list (Z * Z)) (c0 : nat) :
  (forall c k, (c0 <= c < k)%nat -> (k < length v)%nat ->
     far (nth c v dflt) (nth k v dflt) = false) ->
  forall fuel c temp, (c0 <= c)%nat -> sep_outer dt sep v fuel c temp = temp.
Proof.
  intros Hdead fuel. induction fuel as [|f IH]; intros c temp Hc; simpl; [reflexivity|].
  destruct (Nat.ltb c (length v - 1)); [|reflexivity].
  pose proof (sep_inner_spec v (nth c v dflt) (length v) (S c) ltac:(lia)) as Hs.
  destruct (sep_inner dt sep v (nth c v dflt) (length v) (S c)) as [j|].
  - destruct Hs as (Hj & Hfj & _). rewrite (Hdead c j) in Hfj by lia. discriminate.
  - apply IH. lia.
Qed.

Lemma sep_outer_greedy (v : list (Z * Z)) :
  (0 < dt)%Q -> ascending_disjoint v ->
  forall fuel c temp, (c < length v)%nat -> (length v - c <= fuel)%nat ->
  sep_outer dt sep v fuel c temp = temp ++ gthin (nth c v dflt) (skipn (S c) v).
Proof.
  intros Hdt Hv fuel. induction fuel as [|f IH]; intros c temp Hc Hf; [lia|]. cbn [sep_outer].
  destruct (Nat.ltb c (length v - 1)) eqn:Hlt.
  - apply Nat.ltb_lt in Hlt.
    pose proof (sep_inner_spec v (nth c v dflt) (length v) (S c) ltac:(lia)) as Hs.
    destruct (sep_inner dt sep v (nth c v dflt) (length v) (S c)) as [j|].
    + destruct Hs as (Hj & _ & Heq). rewrite Heq, IH by lia.
      rewrite <- app_assoc. reflexivity.
    + destruct Hs as (Heq & Hk). rewrite Heq, app_nil_r.
      apply (sep_outer_stuck v c); [|lia].
      intros c' k Hck Hkn. destruct (far (nth c' v dflt) (nth k v dflt)) eqn:E; [|reflexivity].
      rewrite <- (Hk k ltac:(lia)). symmetry.
      apply (far_mono _ (nth c' v dflt)); [exact Hdt | apply ascending_ends; auto; lia | exact E].
  - apply Nat.ltb_ge in Hlt. rewrite skipn_all2 by lia. rewrite app_nil_r. reflexivity.
Qed.

Lemma separation_pass_greedy (v : list (Z * Z)) :
  (0 < dt)%Q -> ascending_disjoint v ->
  separation_pass dt sep v = greedy_separation dt sep v.
Proof.
  intros Hdt Hv. unfold separation_pass.
  destruct (Nat.leb 2 (length v)) eqn:Hn.
  - apply Nat.leb_le in Hn.
    rewrite (sep_outer_greedy v Hdt Hv (length v) 0) by lia.
    destruct v as [|x r]; simpl in *; [lia | reflexivity].
  - apply Nat.leb_gt in Hn.
    destruct v as [|x [|y r]]; simpl in *; [reflexivity | reflexivity | lia].
Qed.

End SepFacts.

Lemma greedy_thin_incl (dt sep : Q) (last : Z * Z) (l : list (Z * Z)) (x : Z * Z) :
  In x (greedy_thin dt sep last l) -> In x l.
Proof.
  revert last. induction l as [|c r IH]; intros last H; simpl in H; [contradiction|].
  destruct (far_enough dt sep last c); [destruct H as [<-|H]; [left; reflexivity|] |];
    right; eapply IH; exact H.
Qed.

Lemma greedy_thin_sorted (dt sep : Q) (R : Z * Z -> Z * Z -> Prop) (last : Z * Z)
  (l : list (Z * Z)) :
  StronglySorted R l -> StronglySorted R (greedy_thin dt sep last l).
Proof.
  revert last. induction l as [|c r IH]; intros last H; simpl; [constructor|].
  apply StronglySorted_inv in H as [Hr Hc].
  destruct (far_enough dt sep last c); [|apply IH; exact Hr].
  constructor; [apply IH; exact Hr|].
  rewrite Forall_forall in *. intros y Hy. apply Hc. eapply greedy_thin_incl. exact Hy.
Qed.

Lemma greedy_thin_gaps (dt sep : Q) (last : Z * Z) (l : list (Z * Z)) :
  Sorted (fun x y => far_enough dt sep x y = true) (last :: greedy_thin dt sep last l).
Proof.
  revert last. induction l as [|c r IH]; intro last; simpl; [repeat constructor|].
  destruct (far_enough dt sep last c) eqn:E; [|apply IH].
  constructor; [apply IH | constructor; exact E].
Qed.

Lemma Sorted_nth {A} (R : A -> A -> Prop) (l : list A) (d : A) (i : nat) :
  Sorted R l -> (S i < length l)%nat -> R (nth i l d) (nth (S i) l d).
Proof.
  revert i. induction l as [|x l IH]; intros i Hs Hi; simpl in Hi; [lia|].
  apply Sorted_inv in Hs as [Hs Hh].
  destruct l as [|y l]; simpl in Hi; [lia|].
  destruct i as [|i].
  - simpl. inversion Hh; assumption.
  - apply (IH i Hs). simpl. lia.
Qed.

Lemma StronglySorted_filter {A} (R : A -> A -> Prop) (f : A -> bool) (l : list A) :
  StronglySorted R l -> StronglySorted R (filter f l).
Proof.
  induction l as [|x l IH]; intro H; simpl; [constructor|].
  apply StronglySorted_inv in H as [Hl Hx].
  destruct (f x); [|apply IH; exact Hl].
  constructor; [apply IH; exact Hl|].
  rewrite Forall_forall in *. intros y Hy. apply filter_In in Hy as [Hy _]. apply Hx. exact Hy.
Qed.

(** ** The exclusion pass *)

Lemma zones_loop_existsb (signal : list Q) (dt : Q) (zones : list ROI) (c : Z * Z) :
  zones_loop signal dt zones c = existsb (overlaps signal dt c) zones.
Proof.
  induction zones as [|z zs IH]; simpl; [reflexivity|].
  destruct (overlaps signal dt c z); simpl; [reflexivity | exact IH].
Qed.

Lemma exclusion_loop_filter (signal : list Q) (dt : Q) (zones : list ROI)
  (l acc : list (Z * Z)) :
  exclusion_loop signal dt zones l acc =
  acc ++ filter (fun c => negb (existsb (overlaps signal dt c) zones)) l.
Proof.
  revert acc. induction l as [|c cs IH]; intro acc; simpl; [rewrite app_nil_r; reflexivity|].
  rewrite zones_loop_existsb.
  destruct (existsb (overlaps signal dt c) zones); simpl; rewrite IH;
    [reflexivity | rewrite <- app_assoc; reflexivity].
Qed.

Definition sub_interval (a b : Z * Z) : Prop := fst b <= fst a /\ snd a <= snd b.

(** ** Flat signals *)

Lemma fold_min_repeat (x : Q) (n : nat) : fold_left Qmin (repeat x n) x = x.
Proof.
  induction n as [|n IH]; simpl; [reflexivity|].
  unfold Qmin, GenericMinMax.gmin. destruct (x ?= x)%Q; exact IH.
Qed.

Lemma fold_max_repeat (x : Q) (n : nat) : fold_left Qmax (repeat x n) x = x.
Proof.
  induction n as [|n IH]; simpl; [reflexivity|].
  unfold Qmax, GenericMinMax.gmax. destruct (x ?= x)%Q; exact IH.
Qed.

Lemma scan_roi_good (signal : list Q) (dt D : Q) (fuel : nat) (r : ROI) (l : list (Z * Z)) :
  scan_roi signal dt D fuel r = Some l ->
  StronglySorted before l /\
  Forall (good signal dt D (snd (lower_corner r)) (snd (upper_corner r))
            (roi_end signal dt r) (roi_start dt r)) l.
Proof.
  unfold scan_roi. intro H. apply outer_good in H as (nw & -> & Hs & Hg). simpl. auto.
Qed.

Lemma kept_from_scan (signal : list Q) (dt D sep : Q) (fuel : nat) (r : ROI)
  (zones : list ROI) (l : list (Z * Z)) :
  (0 < dt)%Q -> scan_roi signal dt D fuel r = Some l ->
  let kept := separation_pass dt sep (exclusion_pass signal dt zones l) in
  kept = greedy_separation dt sep (exclusion_pass signal dt zones l) /\
  StronglySorted before kept /\ Forall (fun x => fst x < snd x) kept.
Proof.
  intros Hdt H. apply scan_roi_good in H as [Hs Hg].
  set (ex := exclusion_pass signal dt zones l).
  assert (Hex : StronglySorted before ex /\ Forall (fun x => fst x < snd x) ex).
  { unfold ex, exclusion_pass. rewrite exclusion_loop_filter. simpl. split.
    - apply StronglySorted_filter. exact Hs.
    - rewrite Forall_forall in *. intros x Hx. apply filter_In in Hx as [Hx _].
      destruct (Hg x Hx) as (_ & H2 & _). exact H2. }
  destruct Hex as [Hs' Hw'].
  assert (Hasc : ascending_disjoint ex).
  { split; [exact Hs'|]. eapply Forall_impl; [|exact Hw']. simpl. intros. lia. }
  simpl. rewrite (separation_pass_greedy dt sep ex Hdt Hasc).
  split; [reflexivity|].
  destruct ex as [|x rest]; simpl; [split; constructor|].
  apply StronglySorted_inv in Hs' as [Hs1 Hx1].
  inversion Hw' as [|? ? Hxw Hrw]; subst.
  split.
  - constructor; [apply greedy_thin_sorted; exact Hs1|].
    rewrite Forall_forall in *. intros y Hy. apply Hx1. eapply greedy_thin_incl. exact Hy.
  - constructor; [exact Hxw|].
    rewrite Forall_forall in *. intros y Hy. apply Hrw. eapply greedy_thin_incl. exact Hy.
Qed.

(** * Claims *)

(** ** Segmentation scan *)

(** C1 (amended). For a positive sampling step [dt] and a minimum duration
    [D >= 0], with enough fuel for the scan to finish, the scan of a ROI
    emits exactly [chunked_scan]: the clamped window
    [[start_roi, end_roi)] is cut into maximal runs of consecutive in-band
    samples, a run [[a, b)] ending at the first out-of-band index or at
    [end_roi]; each run contributes, in order, the consecutive chunks
    [[a + i*L, a + (i+1)*L)] whose end is at most [b] and below [end_roi],
    where [L = floor(D/dt) + 1] is the least integer length with
    [L*dt > D]. A long run is thus emitted as chunks of length [L], not as
    one maximal run; its remainder shorter than [L] is dropped; and a run
    still in band at [end_roi] still emits its chunks. *)
Theorem C1_scan_is_chunked_runs (signal : list Q) (dt D : Q) (fuel : nat) (r : ROI) :
  (0 < dt)%Q -> (0 <= D)%Q ->
  Z.max 0 (roi_end signal dt r - roi_start dt r) < Z.of_nat fuel ->
  scan_roi signal dt D fuel r = Some (chunked_scan signal dt D r).
Proof.
  intros Hdt HD Hf. unfold scan_roi, chunked_scan.
  rewrite (outer_chunked signal dt D (snd (lower_corner r)) (snd (upper_corner r))
             (roi_end signal dt r) Hdt HD fuel (roi_start dt r) []
             (S (Z.to_nat (roi_end signal dt r - roi_start dt r))) Hf) by lia.
  reflexivity.
Qed.

Lemma C1_scan_is_chunked_runs_witness :
  ((0 < 1)%Q /\ (0 <= 2)%Q /\ Z.max 0 (roi_end sigC 1 roiC - roi_start 1 roiC) < Z.of_nat 11) /\
  scan_roi sigC 1 2 11 roiC = Some (chunked_scan sigC 1 2 roiC) /\
  chunked_scan sigC 1 2 roiC = [(1, 4); (4, 7)].
Proof.
  split; [split; [reflexivity | split; [discriminate | vm_compute; reflexivity]]|].
  split; [|vm_compute; reflexivity].
  apply (C1_scan_is_chunked_runs sigC 1 2 11 roiC);
    [reflexivity | discriminate | vm_compute; reflexivity].
Defined.

(** C1 (counterexample). [sigC = [-1;0;0;0;0;0;0;0;1;1]] is left unchanged
    by the normalisation, so it can be [self._signal]. With [dt = 1], a
    minimum duration of 2 and the band [[-1/2, 1/2]] over the whole window
    [[0, 9)], the samples [1..7] form one maximal in-band run that closes
    at the out-of-band sample 8, inside the window, and lasts 7 > 2. The
    scan nevertheless emits [(1,4)] and [(4,7)] and not the run [(1,8)]. *)
Lemma C1_maximal_run_counterexample :
  normalized_fixpoint sigC = true /\
  roi_start 1 roiC = 0 /\ roi_end sigC 1 roiC = 9 /\
  in_band (snd (lower_corner roiC)) (snd (upper_corner roiC)) (sample sigC 0) = false /\
  (forall i, 1 <= i < 8 ->
     in_band (snd (lower_corner roiC)) (snd (upper_corner roiC)) (sample sigC i) = true) /\
  in_band (snd (lower_corner roiC)) (snd (upper_corner roiC)) (sample sigC 8) = false /\
  (2 < zdt (8 - 1) 1)%Q /\
  scan_roi sigC 1 2 11 roiC = Some [(1, 4); (4, 7)] /\
  ~ In (1, 8) [(1, 4); (4, 7)].
Proof.
  split; [vm_compute; reflexivity|]. split; [vm_compute; reflexivity|].
  split; [vm_compute; reflexivity|]. split; [vm_compute; reflexivity|].
  split.
  { intros i Hi.
    assert (i = 1 \/ i = 2 \/ i = 3 \/ i = 4 \/ i = 5 \/ i = 6 \/ i = 7) as Hc by lia.
    destruct Hc as [->|[->|[->|[->|[->|[->| ->]]]]]]; vm_compute; reflexivity. }
  split; [vm_compute; reflexivity|]. split; [reflexivity|].
  split; [vm_compute; reflexivity|].
  simpl. intros [H|[H|H]]; [discriminate | discriminate | exact H].
Qed.

(** C6. Every interval [(s, e)] appended by the scan satisfies
    [(e - s) * dt > signal_duration] strictly, so a run lasting exactly
    [signal_duration] seconds is never appended. *)
Theorem C6_scan_duration_strict (signal : list Q) (dt D : Q) (fuel : nat)
  (r : ROI) (l : list (Z * Z)) (s e : Z) :
  scan_roi signal dt D fuel r = Some l -> In (s, e) l -> (D < zdt (e - s) dt)%Q.
Proof.
  intros H Hin. apply scan_roi_good in H as [_ Hg]. rewrite Forall_forall in Hg.
  destruct (Hg _ Hin) as (_ & _ & _ & H4 & _). exact H4.
Qed.

Lemma C6_scan_duration_strict_witness :
  scan_roi sig10 1 2 100 roi10 = Some [(0, 3); (3, 6)] /\ In (0, 3) [(0, 3); (3, 6)] /\
  (2 < zdt (3 - 0) 1)%Q.
Proof.
  split; [vm_compute; reflexivity|]. split; [left; reflexivity|].
  apply (C6_scan_duration_strict sig10 1 2 100 roi10 [(0, 3); (3, 6)]);
    [vm_compute; reflexivity | left; reflexivity].
Defined.

(** C10. Every interval [(s, e)] produced by the scan satisfies
    [0 <= s < e <= len(signal) - 1]: the last sample of the buffer belongs
    to no produced (half-open) interval. *)
Theorem C10_scan_interval_bounds (signal : list Q) (dt D : Q) (fuel : nat)
  (r : ROI) (l : list (Z * Z)) (s e : Z) :
  scan_roi signal dt D fuel r = Some l -> In (s, e) l ->
  0 <= s < e /\ e <= Z.of_nat (length signal) - 1.
Proof.
  intros H Hin. apply scan_roi_good in H as [_ Hg]. rewrite Forall_forall in Hg.
  destruct (Hg _ Hin) as (H1 & H2 & H3 & _). simpl in *.
  unfold roi_start, roi_end in *. lia.
Qed.

Lemma C10_scan_interval_bounds_witness :
  scan_roi sig10 1 2 100 roi10 = Some [(0, 3); (3, 6)] /\ In (3, 6) [(0, 3); (3, 6)] /\
  (0 <= 3 < 6 /\ 6 <= Z.of_nat (length sig10) - 1).
Proof.
  split; [vm_compute; reflexivity|]. split; [right; left; reflexivity|].
  apply (C10_scan_interval_bounds sig10 1 2 100 roi10 [(0, 3); (3, 6)]);
    [vm_compute; reflexivity | right; left; reflexivity].
Defined.

(** C9. With [signal_duration >= 0] (in particular [> 0]), each iteration of
    the outer scan loop of every ROI strictly increases its index [comp], and
    [update_valid_intervals] finishes within [len(signal) + 1] iterations of
    each outer loop. *)
Theorem C9_update_terminates (st : reader) (fuel : nat) :
  (0 <= r_signal_duration st)%Q -> (length (r_signal st) < fuel)%nat ->
  (forall r comp, comp < roi_end (r_signal st) (r_dt st) r ->
     comp < fst (scan_step (r_signal st) (r_dt st) (r_signal_duration st)
                   (snd (lower_corner r)) (snd (upper_corner r))
                   (roi_end (r_signal st) (r_dt st) r) comp)) /\
  exists st', update_valid_intervals fuel st = Some st'.
Proof.
  intros HD Hf. split.
  - intros r comp Hc. apply step_advances; assumption.
  - unfold update_valid_intervals.
    assert (Hs : forall rois valid, exists v,
               scan_rois (r_signal st) (r_dt st) (r_signal_duration st) fuel rois valid = Some v).
    { induction rois as [|[name r] rs IH]; intro valid; simpl; [eexists; reflexivity|].
      destruct (outer_terminates (r_signal st) (r_dt st) (r_signal_duration st)
                  (snd (lower_corner r)) (snd (upper_corner r))
                  (roi_end (r_signal st) (r_dt st) r) fuel (roi_start (r_dt st) r) [] HD)
        as [l Hl].
      { unfold roi_start, roi_end. lia. }
      unfold scan_roi. rewrite Hl. apply IH. }
    destruct (Hs (r_rois st) (r_valid_intervals st)) as [v Hv]. rewrite Hv.
    eexists; reflexivity.
Qed.

Lemma C9_update_terminates_witness :
  (0 <= r_signal_duration reader10)%Q /\ (length (r_signal reader10) < 11)%nat /\
  exists st', update_valid_intervals 11 reader10 = Some st'.
Proof.
  split; [unfold Qle; simpl; lia|]. split; [simpl; lia|].
  apply (C9_update_terminates reader10 11); [unfold Qle; simpl; lia | simpl; lia].
Defined.

(** ** Interval filter *)

(** C5. The exclusion pass keeps exactly the candidates that overlap no
    excluded zone, the overlap being [end >= ex_start and start <= ex_end]
    on the zone's clamped index window: it is the filter of the candidates
    by that test (a kept interval is the candidate itself, never clipped),
    and a candidate is kept iff it overlaps no zone. *)
Theorem C5_exclusion_all_or_nothing (signal : list Q) (dt : Q) (zones : list ROI)
  (cands : list (Z * Z)) :
  exclusion_pass signal dt zones cands =
    filter (fun c => negb (existsb (overlaps signal dt c) zones)) cands /\
  forall c, In c (exclusion_pass signal dt zones cands) <->
    In c cands /\
    ~ (exists z, In z zones /\ roi_start dt z <= snd c /\ fst c <= roi_end signal dt z).
Proof.
  assert (Heq : exclusion_pass signal dt zones cands =
                filter (fun c => negb (existsb (overlaps signal dt c) zones)) cands).
  { unfold exclusion_pass. rewrite exclusion_loop_filter. reflexivity. }
  split; [exact Heq|]. intro c. rewrite Heq, filter_In, negb_true_iff.
  split.
  - intros [Hin Hex]. split; [exact Hin|]. intros (z & Hz & H1 & H2).
    assert (Ht : existsb (overlaps signal dt c) zones = true).
    { apply existsb_exists. exists z. split; [exact Hz|]. unfold overlaps.
      apply andb_true_iff. split; apply Z.leb_le; assumption. }
    congruence.
  - intros [Hin Hno]. split; [exact Hin|].
    destruct (existsb (overlaps signal dt c) zones) eqn:E; [|reflexivity].
    apply existsb_exists in E as (z & Hz & Ho). unfold overlaps in Ho.
    apply andb_true_iff in Ho as [H1 H2]. apply Z.leb_le in H1, H2.
    exfalso. apply Hno. exists z. auto.
Qed.

(** C7. On an ascending, pairwise disjoint list of intervals and with
    [dt > 0], the code's doubly nested separation scan returns the same
    list as the greedy thinning of the specification ([greedy_separation]). *)
Theorem C7_separation_is_greedy (dt sep : Q) (v : list (Z * Z)) :
  (0 < dt)%Q -> ascending_disjoint v ->
  separation_pass dt sep v = greedy_separation dt sep v.
Proof. apply separation_pass_greedy. Qed.

Lemma C7_separation_is_greedy_witness :
  (0 < 1)%Q /\ ascending_disjoint [(0, 5); (6, 7); (17, 20)] /\
  separation_pass 1 10 [(0, 5); (6, 7); (17, 20)] =
    greedy_separation 1 10 [(0, 5); (6, 7); (17, 20)].
Proof.
  assert (Ha : ascending_disjoint [(0, 5); (6, 7); (17, 20)]).
  { split; repeat constructor; unfold before; simpl; lia. }
  split; [unfold Qlt; simpl; lia|]. split; [exact Ha|].
  apply C7_separation_is_greedy; [unfold Qlt; simpl; lia | exact Ha].
Defined.

(** C4. For the candidates of a ROI scan, after the exclusion pass and the
    separation pass (with [dt > 0]), every two consecutive kept intervals
    satisfy [(next.start - prev.end) * dt >= signal_separation], and no kept
    interval is a sub-interval of another one. *)
Theorem C4_separation_invariant (signal : list Q) (dt D sep : Q) (fuel : nat)
  (r : ROI) (zones : list ROI) (l : list (Z * Z)) :
  (0 < dt)%Q -> scan_roi signal dt D fuel r = Some l ->
  let kept := separation_pass dt sep (exclusion_pass signal dt zones l) in
  (forall i, (S i < length kept)%nat ->
     (sep <= zdt (fst (nth (S i) kept dflt) - snd (nth i kept dflt)) dt)%Q) /\
  (forall i j, i <> j -> (i < length kept)%nat -> (j < length kept)%nat ->
     ~ sub_interval (nth i kept dflt) (nth j kept dflt)).
Proof.
  intros Hdt H. destruct (kept_from_scan signal dt D sep fuel r zones l Hdt H)
    as (Hk & Hs & Hw). simpl in *.
  set (kept := separation_pass dt sep (exclusion_pass signal dt zones l)) in *.
  split.
  - intros i Hi.
    assert (Hg : Sorted (fun x y => far_enough dt sep x y = true) kept).
    { rewrite Hk. destruct (exclusion_pass signal dt zones l) as [|x rest];
        [constructor | apply greedy_thin_gaps]. }
    pose proof (Sorted_nth _ kept dflt i Hg Hi) as Hf.
    unfold far_enough in Hf. apply Qle_bool_iff in Hf. exact Hf.
  - intros i j Hij Hi Hj [H1 H2]. rewrite Forall_forall in Hw.
    assert (Wi := Hw _ (nth_In kept dflt Hi)). assert (Wj := Hw _ (nth_In kept dflt Hj)).
    destruct (Nat.lt_gt_cases i j) as [[Hlt|Hgt] _]; [exact Hij| |].
    + pose proof (StronglySorted_nth before kept dflt i j Hs ltac:(lia)) as Hb.
      unfold before in Hb. lia.
    + pose proof (StronglySorted_nth before kept dflt j i Hs ltac:(lia)) as Hb.
      unfold before in Hb. lia.
Qed.

Lemma C4_separation_invariant_witness :
  (0 < 1)%Q /\ scan_roi sig10 1 2 100 roi10 = Some [(0, 3); (3, 6)] /\
  let kept := separation_pass 1 0 (exclusion_pass sig10 1 [] [(0, 3); (3, 6)]) in
  (forall i, (S i < length kept)%nat ->
     (0 <= zdt (fst (nth (S i) kept dflt) - snd (nth i kept dflt)) 1)%Q) /\
  (forall i j, i <> j -> (i < length kept)%nat -> (j < length kept)%nat ->
     ~ sub_interval (nth i kept dflt) (nth j kept dflt)).
Proof.
  split; [unfold Qlt; simpl; lia|]. split; [vm_compute; reflexivity|].
  apply (C4_separation_invariant sig10 1 2 0 100 roi10 []);
    [unfold Qlt; simpl; lia | vm_compute; reflexivity].
Defined.

(** ** Normalisation *)

(** C3 (code behaviour). A flat raw signal (every sample equal to [x]) is
    loaded without any error: the normalisation divides [0] by [0] and every
    normalised sample is NaN. *)
Theorem C3_flat_signal_normalizes_to_nan (x : Q) (n : nat) :
  normalize (repeat x (S n)) = inl (repeat NaN (S n)).
Proof.
  unfold normalize. cbn [repeat]. unfold list_min, list_max.
  rewrite fold_min_repeat, fold_max_repeat.
  assert (Hz : Qeq_bool (x - x) 0 = true).
  { apply Qeq_bool_iff. apply Qplus_opp_r. }
  change (x :: repeat x n) with (repeat x (S n)).
  rewrite map_repeat. f_equal. f_equal.
  cbn [f_sub]. unfold f_div. rewrite Hz. reflexivity.
Qed.

(** ** The [parameters] setter *)

(** C8 (code behaviour). Given a valid ['signal duration'] and a non-numeric
    ['signal separation'], the setter raises [EDFFileReaderError] but the new
    [signal_duration] has already been stored; only [signal_separation]
    keeps its previous value. *)
Theorem C8_setter_partial_update (st : reader) :
  let params := [("signal duration", PyInt 2); ("signal separation", PyStr "abc")] in
  fst (set_parameters params st) = Some EDFFileReaderError /\
  r_signal_duration (snd (set_parameters params st)) = 2%Q /\
  r_signal_separation (snd (set_parameters params st)) = r_signal_separation st.
Proof. repeat split; reflexivity. Qed.

(** * Further properties of the reader *)

(** ** Segmentation scan: empty results *)

Lemma zdt_mono (a b : Z) (dt : Q) : (0 < dt)%Q -> a <= b -> (zdt a dt <= zdt b dt)%Q.
Proof.
  intros Hdt Hab. unfold zdt. apply Qmult_le_compat_r; [|apply Qlt_le_weak; exact Hdt].
  rewrite <- Zle_Qle. exact Hab.
Qed.

(** A ROI whose lower amplitude exceeds its upper amplitude yields no
    interval: no sample is ever in band. *)
Theorem scan_inverted_band_empty (signal : list Q) (dt D : Q) (fuel : nat) (r : ROI)
  (l : list (Z * Z)) :
  (snd (upper_corner r) < snd (lower_corner r))%Q ->
  scan_roi signal dt D fuel r = Some l -> l = [].
Proof.
  intros Hinv H. apply scan_roi_good in H as [_ Hg].
  destruct l as [|x l]; [reflexivity|]. exfalso.
  inversion Hg as [|? ? Hx _]; subst.
  destruct Hx as (_ & H2 & _ & _ & _ & Hin).
  specialize (Hin (fst x) ltac:(lia)). unfold in_band in Hin.
  apply andb_true_iff in Hin as [H1 H3]. apply Qle_bool_iff in H1, H3.
  apply (Qlt_not_le _ _ Hinv). eapply Qle_trans; eassumption.
Qed.

Lemma scan_inverted_band_empty_witness :
  (snd (upper_corner roi_flipped) < snd (lower_corner roi_flipped))%Q /\
  scan_roi sig10 1 2 100 roi_flipped = Some [] /\ ([] : list (Z * Z)) = [].
Proof.
  split; [unfold Qlt; simpl; lia|]. split; [vm_compute; reflexivity|].
  apply (scan_inverted_band_empty sig10 1 2 100 roi_flipped);
    [unfold Qlt; simpl; lia | vm_compute; reflexivity].
Defined.

(** A ROI window too short to hold more than [signal_duration] seconds
    (the last usable index being [end_roi - 1]) yields no interval. *)
Theorem scan_short_window_empty (signal : list Q) (dt D : Q) (fuel : nat) (r : ROI)
  (l : list (Z * Z)) :
  (0 < dt)%Q -> (zdt (roi_end signal dt r - 1 - roi_start dt r) dt <= D)%Q ->
  scan_roi signal dt D fuel r = Some l -> l = [].
Proof.
  intros Hdt Hshort H. apply scan_roi_good in H as [_ Hg].
  destruct l as [|x l]; [reflexivity|]. exfalso.
  inversion Hg as [|? ? Hx _]; subst.
  destruct Hx as (H1 & H2 & H3 & H4 & _).
  pose proof (zdt_mono (snd x - fst x) (roi_end signal dt r - 1 - roi_start dt r) dt Hdt
                ltac:(lia)) as Hm.
  apply (Qlt_not_le _ _ H4). eapply Qle_trans; eassumption.
Qed.

Lemma scan_short_window_empty_witness :
  (0 < 1)%Q /\ (zdt (roi_end sig10 1 roi_short - 1 - roi_start 1 roi_short) 1 <= 2)%Q /\
  scan_roi sig10 1 2 100 roi_short = Some [] /\ ([] : list (Z * Z)) = [].
Proof.
  split; [unfold Qlt; simpl; lia|].
  split; [vm_compute; discriminate|]. split; [vm_compute; reflexivity|].
  apply (scan_short_window_empty sig10 1 2 100 roi_short);
    [unfold Qlt; simpl; lia | vm_compute; discriminate | vm_compute; reflexivity].
Defined.

(** ** Separation pass *)

Lemma greedy_thin_keeps_all (dt sep : Q) (last : Z * Z) (l : list (Z * Z)) :
  (0 < dt)%Q -> (sep <= 0)%Q -> StronglySorted before (last :: l) ->
  greedy_thin dt sep last l = l.
Proof.
  intros Hdt Hsep. revert last. induction l as [|c r IH]; intros last Hs; [reflexivity|].
  apply StronglySorted_inv in Hs as [Hs Hf]. inversion Hf as [|? ? Hc _]; subst.
  simpl. replace (far_enough dt sep last c) with true.
  - f_equal. apply IH. exact Hs.
  - symmetry. unfold far_enough. apply Qle_bool_iff. eapply Qle_trans; [exact Hsep|].
    unfold before in Hc. rewrite <- (zdt_0 dt). apply zdt_mono; [exact Hdt | lia].
Qed.

(** With a non-positive [signal_separation] (and [dt > 0]) the separation
    pass keeps every interval of an ascending, disjoint list. *)
Theorem separation_nonpositive_keeps_all (dt sep : Q) (v : list (Z * Z)) :
  (0 < dt)%Q -> (sep <= 0)%Q -> ascending_disjoint v -> separation_pass dt sep v = v.
Proof.
  intros Hdt Hsep Hv. rewrite (separation_pass_greedy dt sep v Hdt Hv).
  destruct v as [|x r]; [reflexivity|]. simpl. f_equal.
  apply greedy_thin_keeps_all; [exact Hdt | exact Hsep | apply Hv].
Qed.

Lemma separation_nonpositive_keeps_all_witness :
  (0 < 1)%Q /\ (0 <= 0)%Q /\ ascending_disjoint [(0, 5); (5, 7); (8, 20)] /\
  separation_pass 1 0 [(0, 5); (5, 7); (8, 20)] = [(0, 5); (5, 7); (8, 20)].
Proof.
  assert (Ha : ascending_disjoint [(0, 5); (5, 7); (8, 20)]).
  { split; repeat constructor; unfold before; simpl; lia. }
  split; [unfold Qlt; simpl; lia|]. split; [unfold Qle; simpl; lia|]. split; [exact Ha|].
  apply separation_nonpositive_keeps_all; [unfold Qlt; simpl; lia | unfold Qle; simpl; lia | exact Ha].
Defined.

Lemma sep_outer_app (dt sep : Q) (v : list (Z * Z)) (fuel comp : nat) (temp : list (Z * Z)) :
  exists rest, sep_outer dt sep v fuel comp temp = temp ++ rest /\
               forall y, In y rest -> In y v.
Proof.
  revert comp temp. induction fuel as [|f IH]; intros comp temp; cbn [sep_outer].
  - exists []. rewrite app_nil_r. split; [reflexivity | intros y []].
  - destruct (Nat.ltb comp (length v - 1)); [| exists []; rewrite app_nil_r; split; [reflexivity | intros y []]].
    pose proof (sep_inner_spec dt sep v (nth comp v dflt) (length v) (S comp) ltac:(lia)) as Hs.
    destruct (sep_inner dt sep v (nth comp v dflt) (length v) (S comp)) as [j|].
    + destruct Hs as (Hj & _). destruct (IH j (temp ++ [nth j v dflt])) as (rest & -> & Hr).
      exists (nth j v dflt :: rest). rewrite <- app_assoc. split; [reflexivity|].
      intros y [<-|Hy]; [apply nth_In; lia | apply Hr; exact Hy].
    + apply IH.
Qed.

(** The separation pass never creates an interval: every kept interval is
    one of its input, and the first input interval is always kept. *)
Theorem separation_subset_keeps_first (dt sep : Q) (v : list (Z * Z)) :
  (forall x, In x (separation_pass dt sep v) -> In x v) /\
  (forall x r, v = x :: r -> exists rest, separation_pass dt sep v = x :: rest).
Proof.
  unfold separation_pass. destruct (Nat.leb 2 (length v)) eqn:Hn.
  - destruct (sep_outer_app dt sep v (length v) 0 [nth 0 v dflt]) as (rest & -> & Hr).
    split.
    + intros x [<-|Hx].
      * destruct v as [|y v]; [discriminate | left; reflexivity].
      * apply Hr. exact Hx.
    + intros x r ->. exists rest. reflexivity.
  - split; [auto | intros x r ->; exists r; reflexivity].
Qed.

(** ** The parameters setter with the getter and the dialog *)

(** Setting the parameters to what the getter returns succeeds and changes
    nothing. *)
Theorem parameters_get_set_roundtrip (st : reader) :
  set_parameters (map (fun '(k, q) => (k, PyFloat q)) (get_parameters st)) st = (None, st).
Proof. destruct st; reflexivity. Qed.

(** The mapping built by [ParametersDialog.parameters] is accepted: no
    error, the two spin-box integers become [signal_duration] and
    [signal_separation], and the thresholds and exclusion-zone text are
    ignored. *)
Theorem dialog_parameters_accepted (tmin tmax : Q) (duration separation : Z)
  (zones : string) (st : reader) :
  set_parameters (dialog_parameters tmin tmax duration separation zones) st =
  (None, set_signal_separation (set_signal_duration st (inject_Z duration))
           (inject_Z separation)).
Proof. reflexivity. Qed.

(** ** Ordered dicts *)

Lemma in_keys_map {A} (d : list (string * A)) (k : string) :
  in_keys d k = existsb (fun k' => String.eqb k' k) (map fst d).
Proof.
  unfold in_keys. induction d as [|[k' v] d IH]; simpl; [reflexivity|].
  rewrite IH. reflexivity.
Qed.

Lemma in_keys_iff {A} (d : list (string * A)) (k : string) :
  in_keys d k = true <-> In k (map fst d).
Proof.
  rewrite in_keys_map, existsb_exists. split.
  - intros [k' [Hin Heq]]. apply String.eqb_eq in Heq. subst. exact Hin.
  - intro H. exists k. split; [exact H | apply String.eqb_refl].
Qed.

Lemma in_keys_same_keys {A B} (d1 : list (string * A)) (d2 : list (string * B)) (k : string) :
  map fst d1 = map fst d2 -> in_keys d1 k = in_keys d2 k.
Proof. intro H. rewrite !in_keys_map, H. reflexivity. Qed.

Lemma in_keys_snoc {A} (d : list (string * A)) (k : string) (v : A) :
  in_keys (d ++ [(k, v)]) k = true.
Proof.
  apply in_keys_iff. rewrite map_app. apply in_or_app. right. left. reflexivity.
Qed.

Lemma assoc_set_fresh {A} (d : list (string * A)) (k : string) (v : A) :
  in_keys d k = false -> assoc_set d k v = d ++ [(k, v)].
Proof.
  unfold in_keys. induction d as [|[k' v'] d IH]; simpl; intro H; [reflexivity|].
  apply orb_false_iff in H as [H1 H2]. simpl in H1. rewrite H1. f_equal. apply IH. exact H2.
Qed.

Lemma assoc_set_keys {A} (d : list (string * A)) (k : string) (v : A) :
  In k (map fst d) -> map fst (assoc_set d k v) = map fst d.
Proof.
  induction d as [|[k' v'] d IH]; simpl; intro H; [contradiction|].
  destruct (String.eqb_spec k' k) as [->|Hne]; simpl; [reflexivity|].
  f_equal. apply IH. destruct H as [H|H]; [congruence|exact H].
Qed.

Lemma lookup_assoc_set_same {A} (d : list (string * A)) (k : string) (v : A) :
  dict_lookup (assoc_set d k v) k = Some v.
Proof.
  induction d as [|[k' v'] d IH]; simpl.
  - rewrite String.eqb_refl. reflexivity.
  - destruct (String.eqb k' k) eqn:E; simpl; rewrite E; [reflexivity|exact IH].
Qed.

Lemma lookup_assoc_set_other {A} (d : list (string * A)) (k k' : string) (v : A) :
  k' <> k -> dict_lookup (assoc_set d k v) k' = dict_lookup d k'.
Proof.
  intro Hne. induction d as [|[k0 v0] d IH]; simpl.
  - destruct (String.eqb_spec k k'); [congruence|reflexivity].
  - destruct (String.eqb_spec k0 k) as [->|Hk]; simpl.
    + destruct (String.eqb_spec k k'); [congruence|reflexivity].
    + destruct (String.eqb k0 k'); [reflexivity|exact IH].
Qed.

Lemma lookup_absent {A} (d : list (string * A)) (k : string) :
  ~ In k (map fst d) -> dict_lookup d k = None.
Proof.
  induction d as [|[k0 v0] d IH]; simpl; intro H; [reflexivity|].
  destruct (String.eqb_spec k0 k); [tauto|]. apply IH. tauto.
Qed.

Lemma lookup_In {A} (d : list (string * A)) (k : string) (v : A) :
  NoDup (map fst d) -> In (k, v) d -> dict_lookup d k = Some v.
Proof.
  induction d as [|[k0 v0] d IH]; simpl; intros Hn H; [contradiction|].
  inversion Hn as [|? ? Hk Hn']; subst.
  destruct H as [H|H].
  - injection H as -> ->. rewrite String.eqb_refl. reflexivity.
  - destruct (String.eqb_spec k0 k) as [->|]; [|apply IH; assumption].
    exfalso. apply Hk. apply in_map_iff. exists (k, v). auto.
Qed.

Lemma dict_del_fresh_app {A} (d : list (string * A)) (k : string) (v : A) :
  in_keys d k = false -> dict_del (d ++ [(k, v)]) k = Some d.
Proof.
  unfold in_keys. induction d as [|[k' v'] d IH]; simpl; intro H.
  - rewrite String.eqb_refl. reflexivity.
  - apply orb_false_iff in H as [H1 H2]. simpl in H1. rewrite H1, (IH H2). reflexivity.
Qed.

Lemma dict_del_absent {A} (d : list (string * A)) (k : string) :
  in_keys d k = false -> dict_del d k = None.
Proof.
  unfold in_keys. induction d as [|[k' v'] d IH]; simpl; intro H; [reflexivity|].
  apply orb_false_iff in H as [H1 H2]. simpl in H1. rewrite H1, (IH H2). reflexivity.
Qed.

Lemma dict_del_present {A} (d : list (string * A)) (k : string) :
  in_keys d k = true -> exists d', dict_del d k = Some d'.
Proof.
  unfold in_keys. induction d as [|[k' v'] d IH]; simpl; intro H; [discriminate|].
  apply orb_true_iff in H.
  destruct (String.eqb k' k) eqn:E; [eexists; reflexivity|].
  destruct H as [H|H]; [simpl in H; congruence|].
  destruct (IH H) as [d' ->]. eexists; reflexivity.
Qed.

Lemma dict_del_split {A} (d d' : list (string * A)) (k : string) :
  dict_del d k = Some d' ->
  exists l1 v l2, d = l1 ++ (k, v) :: l2 /\ d' = l1 ++ l2 /\ ~ In k (map fst l1).
Proof.
  revert d'. induction d as [|[k0 v0] d IH]; simpl; intros d' H; [discriminate|].
  destruct (String.eqb_spec k0 k) as [->|Hne].
  - injection H as <-. exists [], v0, d. simpl. auto.
  - destruct (dict_del d k) as [d1|] eqn:E; simpl in H; [|discriminate].
    injection H as <-. destruct (IH d1 eq_refl) as (l1 & v & l2 & -> & -> & Hn).
    exists ((k0, v0) :: l1), v, l2. simpl. repeat split; auto. intros [H|H]; auto.
Qed.

Lemma dict_del_keys {A B} (d1 : list (string * A)) (d2 : list (string * B)) (k : string) :
  map fst d1 = map fst d2 ->
  option_map (map fst) (dict_del d1 k) = option_map (map fst) (dict_del d2 k).
Proof.
  revert d2. induction d1 as [|[k1 v1] d1 IH]; intros [|[k2 v2] d2] H; simpl in H;
    try discriminate; [reflexivity|].
  injection H as <- H. simpl. destruct (String.eqb k1 k); [simpl; congruence|].
  specialize (IH d2 H). destruct (dict_del d1 k), (dict_del d2 k); simpl in *; congruence.
Qed.

Lemma dict_del_nodup {A} (d d' : list (string * A)) (k : string) :
  NoDup (map fst d) -> dict_del d k = Some d' -> NoDup (map fst d').
Proof.
  intros Hn H. destruct (dict_del_split d d' k H) as (l1 & v & l2 & -> & -> & _).
  rewrite map_app in *. simpl in Hn. exact (NoDup_remove_1 _ _ _ Hn).
Qed.

Lemma NoDup_snoc {A} (l : list A) (x : A) : NoDup l -> ~ In x l -> NoDup (l ++ [x]).
Proof.
  intros H Hx. apply NoDup_app; [exact H | constructor; [intros []|constructor] |].
  intros a Ha [->|[]]. contradiction.
Qed.

(** Two dicts with the same keys in the same order, no repeated key, and the
    same value at every key are equal. *)
Lemma dict_ext {A} (d1 d2 : list (string * A)) :
  map fst d1 = map fst d2 -> NoDup (map fst d1) ->
  (forall k, dict_lookup d1 k = dict_lookup d2 k) -> d1 = d2.
Proof.
  revert d2. induction d1 as [|[k1 v1] d1 IH]; intros [|[k2 v2] d2] Hk Hn Hl;
    simpl in Hk; try discriminate; [reflexivity|].
  injection Hk as <- Hk. inversion Hn as [|? ? Hnot Hn']; subst.
  assert (Hv := Hl k1). simpl in Hv. rewrite String.eqb_refl in Hv. injection Hv as <-.
  f_equal. apply IH; [exact Hk | exact Hn' |].
  intro k. destruct (String.eqb_spec k1 k) as [->|Hne].
  - rewrite !lookup_absent; [reflexivity | rewrite <- Hk | ]; exact Hnot.
  - specialize (Hl k). simpl in Hl. destruct (String.eqb_spec k1 k); [congruence|exact Hl].
Qed.

(** ** Adding and deleting ROIs and excluded zones *)

(** [add_roi] ignores a name already present; otherwise the ROI and an
    empty interval list are stored under the name and no other name
    changes. *)
Theorem add_roi_lookup (name : string) (roi : ROI) (st : reader) :
  (in_keys (r_rois st) name = true -> add_roi name roi st = st) /\
  (in_keys (r_rois st) name = false ->
     dict_lookup (r_rois (add_roi name roi st)) name = Some roi /\
     dict_lookup (r_valid_intervals (add_roi name roi st)) name = Some [] /\
     forall other, other <> name ->
       dict_lookup (r_rois (add_roi name roi st)) other = dict_lookup (r_rois st) other /\
       dict_lookup (r_valid_intervals (add_roi name roi st)) other =
         dict_lookup (r_valid_intervals st) other).
Proof.
  unfold add_roi. split; intro H; rewrite H; [reflexivity|]. simpl.
  split; [apply lookup_assoc_set_same|]. split; [apply lookup_assoc_set_same|].
  intros other Hne. split; apply lookup_assoc_set_other; exact Hne.
Qed.

(** Deleting a ROI just added under a fresh name gives back the reader. *)
Theorem delete_add_roi_roundtrip (name : string) (roi : ROI) (st : reader) :
  in_keys (r_rois st) name = false -> in_keys (r_valid_intervals st) name = false ->
  delete_roi name (add_roi name roi st) = (None, st).
Proof.
  intros H1 H2. unfold add_roi. rewrite H1. unfold delete_roi, set_rois. simpl.
  rewrite !assoc_set_fresh by assumption. rewrite in_keys_snoc. simpl.
  rewrite !dict_del_fresh_app by assumption. destruct st; reflexivity.
Qed.

Lemma delete_add_roi_roundtrip_witness :
  in_keys (r_rois reader10) "b" = false /\ in_keys (r_valid_intervals reader10) "b" = false /\
  delete_roi "b" (add_roi "b" roi10 reader10) = (None, reader10).
Proof.
  split; [vm_compute; reflexivity|]. split; [vm_compute; reflexivity|].
  apply (delete_add_roi_roundtrip "b" roi10 reader10); vm_compute; reflexivity.
Defined.

(** [add_roi] and [delete_roi] keep the interval lists keyed by the ROI names
    in the same order without repetition; under that invariant
    [delete_roi] never raises [KeyError]. *)
Theorem keys_ok_add_delete (name : string) (roi : ROI) (st : reader) :
  keys_ok st ->
  keys_ok (add_roi name roi st) /\
  fst (delete_roi name st) = None /\ keys_ok (snd (delete_roi name st)).
Proof.
  intros [Hk Hn]. split; [|split].
  - unfold add_roi. destruct (in_keys (r_rois st) name) eqn:E; [split; assumption|].
    assert (E' : in_keys (r_valid_intervals st) name = false)
      by (rewrite (in_keys_same_keys _ _ _ Hk); exact E).
    unfold keys_ok, set_rois. simpl. rewrite !assoc_set_fresh by assumption.
    rewrite !map_app, Hk. split; [reflexivity|].
    apply NoDup_snoc; [exact Hn|]. intro Hin. apply (proj2 (in_keys_iff _ _)) in Hin. simpl in Hin. congruence.
  - unfold delete_roi. destruct (in_keys (r_rois st) name) eqn:E; simpl; [|reflexivity].
    rewrite <- (in_keys_same_keys _ _ _ Hk) in E.
    destruct (dict_del_present _ _ E) as [v Hv]. rewrite Hv. reflexivity.
  - unfold delete_roi. destruct (in_keys (r_rois st) name) eqn:E; simpl; [|split; assumption].
    destruct (dict_del_present _ _ E) as [d Hd]. rewrite Hd.
    rewrite <- (in_keys_same_keys _ _ _ Hk) in E.
    destruct (dict_del_present _ _ E) as [v Hv]. rewrite Hv.
    unfold keys_ok, set_rois; simpl. split.
    + assert (Hm := dict_del_keys _ _ name Hk). rewrite Hv, Hd in Hm. simpl in Hm. congruence.
    + exact (dict_del_nodup _ _ _ Hn Hd).
Qed.

Lemma keys_ok_reader10 : keys_ok reader10.
Proof. split; [reflexivity | constructor; [intros [] | constructor]]. Qed.

Lemma reader10_update :
  update_valid_intervals 11 reader10 = Some (set_valid_intervals reader10 [("roi", [(0, 3)])]).
Proof. vm_compute. reflexivity. Qed.

Lemma keys_ok_add_delete_witness :
  keys_ok reader10 /\
  keys_ok (add_roi "b" roi10 reader10) /\
  fst (delete_roi "roi" reader10) = None /\ keys_ok (snd (delete_roi "roi" reader10)).
Proof.
  split; [exact keys_ok_reader10|].
  split; [exact (proj1 (keys_ok_add_delete "b" roi10 reader10 keys_ok_reader10))|].
  exact (proj2 (keys_ok_add_delete "roi" roi10 reader10 keys_ok_reader10)).
Defined.

(** Out of that invariant, deleting a ROI whose name has no interval list
    removes the ROI and then raises [KeyError]. *)
Theorem delete_roi_keyerror (name : string) (st : reader) :
  in_keys (r_rois st) name = true -> in_keys (r_valid_intervals st) name = false ->
  exists rois', dict_del (r_rois st) name = Some rois' /\
    delete_roi name st = (Some KeyError, set_rois st rois' (r_valid_intervals st)) /\
    length rois' = pred (length (r_rois st)).
Proof.
  intros H1 H2. destruct (dict_del_present _ _ H1) as [d Hd]. exists d.
  split; [exact Hd|]. split.
  - unfold delete_roi. rewrite H1, Hd, (dict_del_absent _ _ H2). reflexivity.
  - destruct (dict_del_split _ _ _ Hd) as (l1 & v & l2 & Hr & -> & _). rewrite Hr.
    rewrite !length_app. simpl. lia.
Qed.

Lemma delete_roi_keyerror_witness :
  in_keys (r_rois reader10) "roi" = true /\
  in_keys (r_valid_intervals (set_valid_intervals reader10 [])) "roi" = false /\
  exists rois', dict_del (r_rois reader10) "roi" = Some rois' /\
    delete_roi "roi" (set_valid_intervals reader10 []) =
      (Some KeyError, set_rois (set_valid_intervals reader10 []) rois' []) /\
    length rois' = pred (length (r_rois reader10)).
Proof.
  split; [vm_compute; reflexivity|]. split; [vm_compute; reflexivity|].
  apply (delete_roi_keyerror "roi" (set_valid_intervals reader10 [])); vm_compute; reflexivity.
Defined.

(** Deleting an excluded zone just added under a fresh name gives back the
    reader; deleting a missing one changes nothing. *)
Theorem excluded_zone_roundtrip (name : string) (roi : ROI) (st : reader) :
  in_keys (r_excluded_zones st) name = false ->
  delete_excluded_zone name (add_excluded_zone name roi st) = st /\
  delete_excluded_zone name st = st.
Proof.
  intro H. split.
  - unfold add_excluded_zone. rewrite H. unfold delete_excluded_zone, set_excluded_zones. simpl.
    rewrite assoc_set_fresh by assumption. rewrite dict_del_fresh_app by assumption.
    destruct st; reflexivity.
  - unfold delete_excluded_zone. rewrite dict_del_absent by assumption. reflexivity.
Qed.

Lemma excluded_zone_roundtrip_witness :
  in_keys (r_excluded_zones reader10) "z" = false /\
  delete_excluded_zone "z" (add_excluded_zone "z" roi10 reader10) = reader10 /\
  delete_excluded_zone "z" reader10 = reader10.
Proof.
  split; [vm_compute; reflexivity|].
  apply (excluded_zone_roundtrip "z" roi10 reader10); vm_compute; reflexivity.
Defined.

(** ** What [update_valid_intervals] stores *)

Section UpdateFacts.

Variables (signal : list Q) (dt duration : Q) (fuel : nat).

Lemma scan_rois_keys (rois : list (string * ROI)) (valid v : list (string * list (Z * Z))) :
  (forall k, In k (map fst rois) -> In k (map fst valid)) ->
  scan_rois signal dt duration fuel rois valid = Some v -> map fst v = map fst valid.
Proof.
  revert valid. induction rois as [|[name roi] rs IH]; simpl; intros valid Hin H.
  - congruence.
  - destruct (scan_roi signal dt duration fuel roi) as [l|]; [|discriminate].
    assert (Hk : map fst (assoc_set valid name l) = map fst valid)
      by (apply assoc_set_keys; apply Hin; left; reflexivity).
    rewrite <- Hk. apply IH; [|exact H].
    intros k Hk'. rewrite Hk. apply Hin. right. exact Hk'.
Qed.

Lemma scan_rois_other (rois : list (string * ROI)) (valid v : list (string * list (Z * Z)))
  (k : string) :
  ~ In k (map fst rois) ->
  scan_rois signal dt duration fuel rois valid = Some v -> dict_lookup v k = dict_lookup valid k.
Proof.
  revert valid. induction rois as [|[name roi] rs IH]; simpl; intros valid Hk H.
  - congruence.
  - destruct (scan_roi signal dt duration fuel roi) as [l|]; [|discriminate].
    rewrite (IH _ (fun h => Hk (or_intror h)) H).
    apply lookup_assoc_set_other. intro E. apply Hk. left. congruence.
Qed.

Lemma scan_rois_lookup (rois : list (string * ROI)) (valid v : list (string * list (Z * Z)))
  (name : string) (roi : ROI) :
  NoDup (map fst rois) ->
  scan_rois signal dt duration fuel rois valid = Some v -> In (name, roi) rois ->
  exists l, scan_roi signal dt duration fuel roi = Some l /\ dict_lookup v name = Some l.
Proof.
  revert valid. induction rois as [|[n0 r0] rs IH]; simpl; intros valid Hn H Hin;
    [contradiction|].
  inversion Hn as [|? ? Hnot Hn']; subst.
  destruct (scan_roi signal dt duration fuel r0) as [l0|] eqn:E0; [|discriminate].
  destruct Hin as [Heq|Hin].
  - injection Heq as -> ->. exists l0. split; [exact E0|].
    rewrite (scan_rois_other _ _ _ _ Hnot H). apply lookup_assoc_set_same.
  - exact (IH _ Hn' H Hin).
Qed.

End UpdateFacts.

Lemma filter_all_keys (signal : list Q) (dt sep : Q) (zones : list ROI)
  (v : list (string * list (Z * Z))) :
  map fst (filter_all signal dt sep zones v) = map fst v.
Proof.
  unfold filter_all. rewrite map_map. apply map_ext. intros [k l]. reflexivity.
Qed.

Lemma filter_all_lookup (signal : list Q) (dt sep : Q) (zones : list ROI)
  (v : list (string * list (Z * Z))) (k : string) :
  dict_lookup (filter_all signal dt sep zones v) k =
  option_map (fun l => separation_pass dt sep (exclusion_pass signal dt zones l))
    (dict_lookup v k).
Proof.
  unfold filter_all. induction v as [|[k0 l0] v IH]; simpl; [reflexivity|].
  destruct (String.eqb k0 k); [reflexivity | exact IH].
Qed.

(** Under the key invariant, [update_valid_intervals] keeps it, changes
    nothing but the interval lists, and stores under each ROI name the scan
    of that ROI after the exclusion and separation passes, whatever was
    stored there before. *)
Theorem update_valid_intervals_spec (fuel : nat) (st st' : reader) :
  keys_ok st -> update_valid_intervals fuel st = Some st' ->
  keys_ok st' /\ st' = set_valid_intervals st (r_valid_intervals st') /\
  forall name roi, In (name, roi) (r_rois st) ->
    exists l, scan_roi (r_signal st) (r_dt st) (r_signal_duration st) fuel roi = Some l /\
      dict_lookup (r_valid_intervals st') name =
        Some (separation_pass (r_dt st) (r_signal_separation st)
                (exclusion_pass (r_signal st) (r_dt st) (map snd (r_excluded_zones st)) l)).
Proof.
  intros [Hk Hn]. unfold update_valid_intervals.
  destruct (scan_rois (r_signal st) (r_dt st) (r_signal_duration st) fuel (r_rois st)
              (r_valid_intervals st)) as [v|] eqn:Hv; [|discriminate].
  intro H. injection H as <-. split; [|split].
  - unfold keys_ok, set_valid_intervals; simpl. split; [|exact Hn].
    rewrite filter_all_keys. rewrite (scan_rois_keys _ _ _ _ _ _ _ (fun k Hin =>
      eq_ind _ (In k) Hin _ (eq_sym Hk)) Hv). exact Hk.
  - reflexivity.
  - intros name roi Hin. simpl.
    destruct (scan_rois_lookup _ _ _ _ _ _ _ _ _ Hn Hv Hin) as [l [Hl Hlk]].
    exists l. split; [exact Hl|]. rewrite filter_all_lookup, Hlk. reflexivity.
Qed.

Lemma update_valid_intervals_spec_witness :
  keys_ok reader10 /\
  update_valid_intervals 11 reader10 = Some (set_valid_intervals reader10 [("roi", [(0, 3)])]) /\
  let st' := set_valid_intervals reader10 [("roi", [(0, 3)])] in
  keys_ok st' /\ st' = set_valid_intervals reader10 (r_valid_intervals st') /\
  forall name roi, In (name, roi) (r_rois reader10) ->
    exists l, scan_roi (r_signal reader10) (r_dt reader10) (r_signal_duration reader10) 11 roi
                = Some l /\
      dict_lookup (r_valid_intervals st') name =
        Some (separation_pass (r_dt reader10) (r_signal_separation reader10)
                (exclusion_pass (r_signal reader10) (r_dt reader10)
                   (map snd (r_excluded_zones reader10)) l)).
Proof.
  split; [exact keys_ok_reader10|]. split; [exact reader10_update|].
  exact (update_valid_intervals_spec 11 reader10 _ keys_ok_reader10 reader10_update).
Defined.

(** Running [update_valid_intervals] a second time changes nothing. *)
Theorem update_valid_intervals_idempotent (fuel : nat) (st st1 st2 : reader) :
  keys_ok st -> update_valid_intervals fuel st = Some st1 ->
  update_valid_intervals fuel st1 = Some st2 -> st2 = st1.
Proof.
  intros Hok H1 H2.
  destruct (update_valid_intervals_spec fuel st st1 Hok H1) as (Hok1 & E1 & L1).
  destruct (update_valid_intervals_spec fuel st1 st2 Hok1 H2) as (Hok2 & E2 & L2).
  assert (R : r_rois st1 = r_rois st /\ r_signal st1 = r_signal st /\ r_dt st1 = r_dt st /\
              r_signal_duration st1 = r_signal_duration st /\
              r_signal_separation st1 = r_signal_separation st /\
              r_excluded_zones st1 = r_excluded_zones st)
    by (rewrite E1; repeat split).
  destruct R as (R1 & R2 & R3 & R4 & R5 & R6). rewrite R1, R2, R3, R4, R5, R6 in L2.
  destruct Hok1 as [Hk1 Hn1]. destruct Hok2 as [Hk2 _].
  assert (R7 : r_rois st2 = r_rois st1) by (rewrite E2; reflexivity). rewrite R7 in Hk2.
  assert (V : r_valid_intervals st2 = r_valid_intervals st1).
  { apply dict_ext.
    - congruence.
    - rewrite Hk2. exact Hn1.
    - intro k. destruct (in_dec string_dec k (map fst (r_rois st))) as [Hin|Hnot].
      + apply in_map_iff in Hin. destruct Hin as [[k' roi] [<- Hin]]. simpl.
        destruct (L1 k' roi Hin) as [l [Hl Hlk1]].
        destruct (L2 k' roi Hin) as [l' [Hl' Hlk2]].
        rewrite Hl in Hl'. injection Hl' as <-. rewrite Hlk2, Hlk1. reflexivity.
      + rewrite !lookup_absent; [reflexivity | |]; rewrite ?Hk1, ?Hk2, R1; exact Hnot. }
  rewrite E2, V. destruct st1; reflexivity.
Qed.

Lemma update_valid_intervals_idempotent_witness :
  let st1 := set_valid_intervals reader10 [("roi", [(0, 3)])] in
  keys_ok reader10 /\ update_valid_intervals 11 reader10 = Some st1 /\
  update_valid_intervals 11 st1 = Some st1 /\ st1 = st1.
Proof.
  split; [exact keys_ok_reader10|]. split; [exact reader10_update|].
  assert (E2 : update_valid_intervals 11 (set_valid_intervals reader10 [("roi", [(0, 3)])]) =
               Some (set_valid_intervals reader10 [("roi", [(0, 3)])]))
    by (vm_compute; reflexivity).
  split; [exact E2|].
  exact (update_valid_intervals_idempotent 11 reader10 _ _ keys_ok_reader10 reader10_update E2).
Defined.

(** ** Frequencies of [get_filtered_signal] and [frequencies] *)

Lemma half_split (m : nat) :
  (m / 2 + 1 + S m / 2 = S m)%nat /\ (2 * (m / 2) <= m)%nat /\ (m <= 2 * (m / 2) + 1)%nat.
Proof.
  pose proof (Nat.div_mod m 2 ltac:(lia)). pose proof (Nat.mod_upper_bound m 2 ltac:(lia)).
  pose proof (Nat.div_mod (S m) 2 ltac:(lia)). pose proof (Nat.mod_upper_bound (S m) 2 ltac:(lia)).
  lia.
Qed.

Lemma fftfreq_length (n : nat) (d : Q) : length (fftfreq n d) = n.
Proof.
  destruct n as [|m]; [reflexivity|]. unfold fftfreq; cbv beta iota zeta.
  rewrite length_map, length_app, !length_map, !length_seq.
  destruct (half_split m) as (H & _ & _). lia.
Qed.

Lemma fftfreq_nth (n : nat) (d : Q) (k : nat) :
  (k < n)%nat ->
  nth k (fftfreq n d) 0%Q =
  (inject_Z (if Nat.ltb k ((n - 1) / 2 + 1) then Z.of_nat k else Z.of_nat k - Z.of_nat n) *
   (1 / (inject_Z (Z.of_nat n) * d)))%Q.
Proof.
  intro Hk. destruct n as [|m]; [lia|].
  pose proof (fftfreq_length (S m) d) as Hl.
  unfold fftfreq in *; cbv beta iota zeta in *.
  destruct (half_split m) as (Hs & _ & _).
  set (f := fun k0 : Z => (inject_Z k0 * (1 / (inject_Z (Z.of_nat (S m)) * d)))%Q) in *.
  rewrite (nth_indep _ 0%Q (f 0%Z)) by lia.
  rewrite map_nth. unfold f. f_equal. f_equal.
  replace (S m - 1)%nat with m by lia.
  destruct (Nat.ltb_spec k (m / 2 + 1)) as [Hlt|Hge].
  - rewrite app_nth1 by (rewrite length_map, length_seq; exact Hlt).
    rewrite (nth_indep _ 0%Z (Z.of_nat 0)) by (rewrite length_map, length_seq; exact Hlt).
    rewrite map_nth, seq_nth by exact Hlt. reflexivity.
  - rewrite app_nth2 by (rewrite length_map, length_seq; exact Hge).
    rewrite length_map, length_seq.
    set (g := fun i => Z.of_nat i - Z.of_nat (S m / 2)).
    rewrite (nth_indep _ 0%Z (g 0%nat)) by (rewrite length_map, length_seq; lia).
    rewrite map_nth, seq_nth by lia. unfold g. lia.
Qed.

(** [np.fft.fftfreq(n, d)] has one frequency per sample and is odd-symmetric:
    the frequency at [n - k] is the opposite of the one at [k], except at the
    Nyquist index [k = n/2] of an even [n]. *)
Theorem fftfreq_symmetric (n : nat) (d : Q) (k : nat) :
  (0 < k < n)%nat -> (2 * k <> n)%nat ->
  length (fftfreq n d) = n /\
  (nth (n - k) (fftfreq n d) 0 == - nth k (fftfreq n d) 0)%Q.
Proof.
  intros Hk H2. split; [apply fftfreq_length|].
  rewrite !fftfreq_nth by lia.
  destruct n as [|m]; [lia|]. replace (S m - 1)%nat with m by lia.
  destruct (half_split m) as (Hs & Hlo & Hhi).
  destruct (Nat.ltb_spec (S m - k) (m / 2 + 1)), (Nat.ltb_spec k (m / 2 + 1));
    try (exfalso; lia);
    match goal with
    | |- (inject_Z ?a * _ == - (inject_Z ?b * _))%Q =>
        assert (E : a = - b) by lia; rewrite E, inject_Z_opp; ring
    end.
Qed.

Lemma fftfreq_symmetric_witness :
  (0 < 1 < 4)%nat /\ (2 * 1 <> 4)%nat /\
  length (fftfreq 4 (1 # 2)) = 4%nat /\
  (nth (4 - 1) (fftfreq 4 (1 # 2)) 0 == - nth 1 (fftfreq 4 (1 # 2)) 0)%Q.
Proof.
  split; [lia|]. split; [lia|]. apply (fftfreq_symmetric 4 (1 # 2) 1); lia.
Defined.

(** ** The band-pass mask of [get_filtered_signal] *)

Lemma zero_where_length {A} (zero : A) (test : Q -> bool) (fs : list Q) (s : list A) :
  length (zero_where zero test fs s) = length s.
Proof.
  revert s. induction fs as [|f fs IH]; intros [|x s]; simpl; auto.
Qed.

Lemma zero_where_nth {A} (zero : A) (test : Q -> bool) (fs : list Q) (s : list A) (k : nat) :
  (length s <= length fs)%nat -> (k < length s)%nat ->
  nth k (zero_where zero test fs s) zero =
  if test (nth k fs 0%Q) then zero else nth k s zero.
Proof.
  revert s k. induction fs as [|f fs IH]; intros [|x s] k Hl Hk; simpl in *; try lia.
  destruct k as [|k]; [reflexivity|]. apply IH; lia.
Qed.

(** With one frequency per coefficient, the mask keeps the length of the
    spectrum, keeps a coefficient whose frequency has [fmin <= |f| <= fmax]
    and zeroes the others. *)
Theorem band_pass_mask_spec {A} (zero : A) (freqs : list Q) (fmin fmax : Q) (s : list A)
  (k : nat) :
  length s = length freqs -> (k < length s)%nat ->
  length (band_pass_mask zero freqs fmin fmax s) = length s /\
  ((fmin <= Qabs (nth k freqs 0) /\ Qabs (nth k freqs 0) <= fmax)%Q ->
     nth k (band_pass_mask zero freqs fmin fmax s) zero = nth k s zero) /\
  ((Qabs (nth k freqs 0) < fmin \/ fmax < Qabs (nth k freqs 0))%Q ->
     nth k (band_pass_mask zero freqs fmin fmax s) zero = zero).
Proof.
  intros Hl Hk. unfold band_pass_mask.
  split; [rewrite !zero_where_length; reflexivity|].
  rewrite zero_where_nth by (rewrite zero_where_length; lia).
  rewrite zero_where_nth by lia.
  split.
  - intros [H1 H2]. apply qlt_false in H1. apply qlt_false in H2. rewrite H1, H2. reflexivity.
  - intros [H|H].
    + apply qlt_true in H. rewrite H. destruct (qlt fmax _); reflexivity.
    + apply qlt_true in H. rewrite H. reflexivity.
Qed.

Lemma band_pass_mask_spec_witness :
  length [1; 2; 3; 4]%Q = length (fftfreq 4 1) /\ (1 < length [1; 2; 3; 4]%Q)%nat /\
  length (band_pass_mask 0%Q (fftfreq 4 1) (1 # 8) (1 # 3) [1; 2; 3; 4]%Q) = 4%nat /\
  (((1 # 8) <= Qabs (nth 1 (fftfreq 4 1) 0) /\ Qabs (nth 1 (fftfreq 4 1) 0) <= (1 # 3))%Q ->
     nth 1 (band_pass_mask 0%Q (fftfreq 4 1) (1 # 8) (1 # 3) [1; 2; 3; 4]%Q) 0%Q = 2%Q) /\
  ((Qabs (nth 1 (fftfreq 4 1) 0) < (1 # 8) \/ (1 # 3) < Qabs (nth 1 (fftfreq 4 1) 0))%Q ->
     nth 1 (band_pass_mask 0%Q (fftfreq 4 1) (1 # 8) (1 # 3) [1; 2; 3; 4]%Q) 0%Q = 0%Q).
Proof.
  split; [reflexivity|]. split; [simpl; lia|].
  apply (band_pass_mask_spec 0%Q (fftfreq 4 1) (1 # 8) (1 # 3) [1; 2; 3; 4]%Q 1);
    [reflexivity | simpl; lia].
Defined.

(** ** The time axis of [EDFFileReader.__init__] *)

Lemma times_axis_facts (n : nat) (dt : Q) :
  (0 < dt)%Q ->
  length (times_axis n dt) = n /\
  forall i, (i < n)%nat -> (nth i (times_axis n dt) 0 == inject_Z (Z.of_nat i) * dt)%Q.
Proof.
  intro Hdt. assert (Hd0 : ~ dt == 0) by (intro E; rewrite E in Hdt; exact (Qlt_irrefl 0 Hdt)).
  assert (Hc : Qceiling ((inject_Z (Z.of_nat n) * dt - 0) / dt) = Z.of_nat n).
  { rewrite (Qceiling_comp _ (inject_Z (Z.of_nat n))) by (field; exact Hd0).
    apply Qceiling_Z. }
  unfold times_axis, arange. rewrite Hc, Nat2Z.id. split.
  - rewrite length_map, length_seq. reflexivity.
  - intros i Hi.
    set (f := fun i0 : nat => (0 + inject_Z (Z.of_nat i0) * dt)%Q).
    rewrite (nth_indep _ 0%Q (f 0%nat)) by (rewrite length_map, length_seq; exact Hi).
    rewrite map_nth, seq_nth by exact Hi. unfold f. simpl. ring.
Qed.

(** ** Zooming on a stored interval ([MainWindow.on_show_zoomed_data]) *)

Lemma separation_pass_incl (dt sep : Q) (v : list (Z * Z)) (x : Z * Z) :
  In x (separation_pass dt sep v) -> In x v.
Proof.
  unfold separation_pass. destruct (Nat.leb 2 (length v)) eqn:Hn; [|auto].
  destruct (sep_outer_app dt sep v (length v) 0 [nth 0 v dflt]) as (rest & -> & Hr).
  intros [<-|Hx]; [apply nth_In; apply Nat.leb_le in Hn; lia | apply Hr; exact Hx].
Qed.

(** Every interval stored by [update_valid_intervals] lies inside the
    signal, so that the zoom on it slices [e - s >= 1] times and as many
    samples, and the dialog title shows [s*dt] and [(e-1)*dt]. *)
Theorem zoomed_interval_slices (fuel : nat) (st st' : reader) (name : string)
  (ivs : list (Z * Z)) (s e : Z) :
  keys_ok st -> (0 < r_dt st)%Q -> update_valid_intervals fuel st = Some st' ->
  In (name, ivs) (r_valid_intervals st') -> In (s, e) ivs ->
  0 <= s < e /\ e < Z.of_nat (length (r_signal st')) /\
  length (py_slice (times_axis (length (r_signal st')) (r_dt st')) s e) = Z.to_nat (e - s) /\
  length (py_slice (r_signal st') s e) = Z.to_nat (e - s) /\
  (nth 0 (py_slice (times_axis (length (r_signal st')) (r_dt st')) s e) 0
     == zdt s (r_dt st'))%Q /\
  (nth (Z.to_nat (e - s) - 1) (py_slice (times_axis (length (r_signal st')) (r_dt st')) s e) 0
     == zdt (e - 1) (r_dt st'))%Q.
Proof.
  intros Hok Hdt H Hin Hse.
  destruct (update_valid_intervals_spec fuel st st' Hok H) as ((Hk' & Hn') & E & Hl).
  assert (R : r_rois st' = r_rois st /\ r_signal st' = r_signal st /\ r_dt st' = r_dt st)
    by (rewrite E; repeat split).
  destruct R as (R1 & R2 & R3). rewrite R2, R3.
  assert (Hname : In name (map fst (r_rois st))).
  { rewrite <- R1, <- Hk'. apply in_map_iff. exists (name, ivs). auto. }
  apply in_map_iff in Hname. destruct Hname as [[name' roi] [Heq Hroi]]. simpl in Heq. subst name'.
  destruct (Hl name roi Hroi) as [l [Hscan Hlk]].
  rewrite (lookup_In _ _ _ ltac:(rewrite Hk'; exact Hn') Hin) in Hlk. injection Hlk as ->.
  apply separation_pass_incl in Hse. unfold exclusion_pass in Hse.
  rewrite exclusion_loop_filter in Hse. simpl in Hse. apply filter_In in Hse as [Hse _].
  apply scan_roi_good in Hscan as [_ Hg]. rewrite Forall_forall in Hg.
  destruct (Hg _ Hse) as (H1 & H2 & H3 & _). simpl in H1, H2, H3.
  unfold roi_start, roi_end in H1, H3.
  assert (Hb : 0 <= s < e /\ e < Z.of_nat (length (r_signal st))) by lia.
  destruct (times_axis_facts (length (r_signal st)) (r_dt st) Hdt) as [Htl Htn].
  unfold py_slice. split; [lia|]. split; [lia|].
  split; [rewrite length_firstn, length_skipn, Htl; lia|].
  split; [rewrite length_firstn, length_skipn; lia|].
  split.
  - rewrite nth_firstn. destruct (Nat.ltb_spec 0 (Z.to_nat e - Z.to_nat s)); [|lia].
    rewrite nth_skipn, Nat.add_0_r, Htn by lia. unfold zdt. rewrite Z2Nat.id by lia.
    apply Qeq_refl.
  - rewrite nth_firstn.
    destruct (Nat.ltb_spec (Z.to_nat (e - s) - 1) (Z.to_nat e - Z.to_nat s)); [|lia].
    rewrite nth_skipn, Htn by lia. unfold zdt.
    replace (Z.of_nat (Z.to_nat s + (Z.to_nat (e - s) - 1))) with (e - 1) by lia.
    apply Qeq_refl.
Qed.

Lemma zoomed_interval_slices_witness :
  keys_ok reader10 /\ (0 < r_dt reader10)%Q /\
  update_valid_intervals 11 reader10 = Some (set_valid_intervals reader10 [("roi", [(0, 3)])]) /\
  In ("roi", [(0, 3)]) [("roi", [(0, 3)])] /\ In (0, 3) [(0, 3)] /\
  let st' := set_valid_intervals reader10 [("roi", [(0, 3)])] in
  0 <= 0 < 3 /\ 3 < Z.of_nat (length (r_signal st')) /\
  length (py_slice (times_axis (length (r_signal st')) (r_dt st')) 0 3) = Z.to_nat (3 - 0) /\
  length (py_slice (r_signal st') 0 3) = Z.to_nat (3 - 0) /\
  (nth 0 (py_slice (times_axis (length (r_signal st')) (r_dt st')) 0 3) 0
     == zdt 0 (r_dt st'))%Q /\
  (nth (Z.to_nat (3 - 0) - 1) (py_slice (times_axis (length (r_signal st')) (r_dt st')) 0 3) 0
     == zdt (3 - 1) (r_dt st'))%Q.
Proof.
  split; [exact keys_ok_reader10|]. split; [unfold Qlt; simpl; lia|].
  split; [exact reader10_update|]. split; [left; reflexivity|]. split; [left; reflexivity|].
  exact (zoomed_interval_slices 11 reader10 _ "roi" [(0, 3)] 0 3 keys_ok_reader10
           ltac:(unfold Qlt; simpl; lia) reader10_update (or_introl eq_refl) (or_introl eq_refl)).
Defined.

(** ** Range of the normalised signal *)

Lemma qmin_cases (x y : Q) : (Qmin x y = x /\ (x <= y)%Q) \/ (Qmin x y = y /\ (y < x)%Q).
Proof.
  unfold Qmin, GenericMinMax.gmin. destruct (Qcompare x y) eqn:E.
  - left. split; [reflexivity|]. apply Qeq_alt in E. rewrite E. apply Qle_refl.
  - left. split; [reflexivity|]. apply Qlt_le_weak. apply Qlt_alt. exact E.
  - right. split; [reflexivity|]. apply Qgt_alt. exact E.
Qed.

Lemma qmax_cases (x y : Q) : (Qmax x y = x /\ (y <= x)%Q) \/ (Qmax x y = y /\ (x < y)%Q).
Proof.
  unfold Qmax, GenericMinMax.gmax. destruct (Qcompare x y) eqn:E.
  - left. split; [reflexivity|]. apply Qeq_alt in E. rewrite E. apply Qle_refl.
  - right. split; [reflexivity|]. apply Qlt_alt. exact E.
  - left. split; [reflexivity|]. apply Qlt_le_weak. apply Qgt_alt. exact E.
Qed.

Lemma fold_min_spec (r : list Q) (x : Q) :
  (fold_left Qmin r x <= x)%Q /\ (forall y, In y r -> fold_left Qmin r x <= y)%Q /\
  (fold_left Qmin r x = x \/ In (fold_left Qmin r x) r).
Proof.
  revert x. induction r as [|y r IH]; intro x; simpl.
  - split; [apply Qle_refl|]. split; [intros y []|]. left; reflexivity.
  - destruct (IH (Qmin x y)) as (H1 & H2 & H3).
    destruct (qmin_cases x y) as [[Em Hxy]|[Em Hyx]]; rewrite Em in *.
    + split; [exact H1|]. split; [intros z [<-|Hz]; [apply (Qle_trans _ x); assumption | auto]|].
      destruct H3; auto.
    + split; [apply (Qle_trans _ y); [exact H1 | apply Qlt_le_weak; exact Hyx]|].
      split; [intros z [<-|Hz]; auto|]. destruct H3 as [H3|H3]; [rewrite H3|]; auto.
Qed.

Lemma fold_max_spec (r : list Q) (x : Q) :
  (x <= fold_left Qmax r x)%Q /\ (forall y, In y r -> y <= fold_left Qmax r x)%Q /\
  (fold_left Qmax r x = x \/ In (fold_left Qmax r x) r).
Proof.
  revert x. induction r as [|y r IH]; intro x; simpl.
  - split; [apply Qle_refl|]. split; [intros y []|]. left; reflexivity.
  - destruct (IH (Qmax x y)) as (H1 & H2 & H3).
    destruct (qmax_cases x y) as [[Em Hxy]|[Em Hyx]]; rewrite Em in *.
    + split; [exact H1|]. split; [intros z [<-|Hz]; [apply (Qle_trans _ x); assumption | auto]|].
      destruct H3; auto.
    + split; [apply (Qle_trans _ y); [apply Qlt_le_weak; exact Hyx | exact H1]|].
      split; [intros z [<-|Hz]; auto|]. destruct H3 as [H3|H3]; [rewrite H3|]; auto.
Qed.

(** A raw signal that is not flat is normalised without NaN into [[-1, 1]]:
    some sample becomes [-1] (the minimum) and some becomes [1] (the
    maximum). *)
Theorem normalize_range (raw : list Q) :
  (list_min raw < list_max raw)%Q ->
  exists out, normalize raw = inl out /\ length out = length raw /\
    (forall v, In v out -> exists q, v = Fin q /\ (-1 <= q <= 1)%Q) /\
    (exists q, In (Fin q) out /\ q == -1)%Q /\
    (exists q, In (Fin q) out /\ q == 1)%Q.
Proof.
  intro Hlt. destruct raw as [|x r]; [unfold Qlt in Hlt; simpl in Hlt; lia|].
  set (mini := list_min (x :: r)) in *. set (maxi := list_max (x :: r)) in *.
  assert (Hc : (0 < maxi - mini)%Q) by lra.
  assert (Hc0 : ~ maxi - mini == 0) by (intro E; rewrite E in Hc; exact (Qlt_irrefl 0 Hc)).
  assert (Hnz : Qeq_bool (maxi - mini) 0 = false).
  { destruct (Qeq_bool (maxi - mini) 0) eqn:E; [|reflexivity].
    apply Qeq_bool_iff in E. contradiction. }
  set (g := fun s => Fin (((s - mini) / (maxi - mini) - (1 # 2)) * 2)).
  assert (Hmin : forall s, In s (x :: r) -> (mini <= s)%Q).
  { unfold mini, list_min. destruct (fold_min_spec r x) as (H1 & H2 & _).
    intros s [<-|Hs]; auto. }
  assert (Hmax : forall s, In s (x :: r) -> (s <= maxi)%Q).
  { unfold maxi, list_max. destruct (fold_max_spec r x) as (H1 & H2 & _).
    intros s [<-|Hs]; auto. }
  assert (Imin : In mini (x :: r)).
  { unfold mini, list_min. destruct (fold_min_spec r x) as (_ & _ & [->|H]); [left|right]; auto. }
  assert (Imax : In maxi (x :: r)).
  { unfold maxi, list_max. destruct (fold_max_spec r x) as (_ & _ & [->|H]); [left|right]; auto. }
  exists (map g (x :: r)). split; [|split; [|split; [|split]]].
  - unfold normalize. fold mini maxi. f_equal. apply map_ext. intro s.
    cbn [f_sub]. unfold f_div. rewrite Hnz. reflexivity.
  - apply length_map.
  - intros v Hv. apply in_map_iff in Hv. destruct Hv as [s [<- Hs]].
    eexists. split; [reflexivity|].
    assert (Q1 : (0 <= (s - mini) / (maxi - mini))%Q).
    { apply Qle_shift_div_l; [exact Hc|]. rewrite Qmult_0_l. specialize (Hmin s Hs). lra. }
    assert (Q2 : ((s - mini) / (maxi - mini) <= 1)%Q).
    { apply Qle_shift_div_r; [exact Hc|]. rewrite Qmult_1_l. specialize (Hmax s Hs). lra. }
    split; lra.
  - exists (((mini - mini) / (maxi - mini) - (1 # 2)) * 2)%Q. split.
    + apply in_map_iff. exists mini. auto.
    + field. exact Hc0.
  - exists (((maxi - mini) / (maxi - mini) - (1 # 2)) * 2)%Q. split.
    + apply in_map_iff. exists maxi. auto.
    + field. exact Hc0.
Qed.

Lemma normalize_range_witness :
  (list_min [1; 3; 2]%Q < list_max [1; 3; 2]%Q)%Q /\
  exists out, normalize [1; 3; 2]%Q = inl out /\ length out = length [1; 3; 2]%Q /\
    (forall v, In v out -> exists q, v = Fin q /\ (-1 <= q <= 1)%Q) /\
    (exists q, In (Fin q) out /\ q == -1)%Q /\
    (exists q, In (Fin q) out /\ q == 1)%Q.
Proof.
  split; [vm_compute; reflexivity|]. apply normalize_range. vm_compute. reflexivity.
Defined.
